(** * ez-image: the responsive image component

    A shallow embedding of the logic of the [Image] component: breakpoint
    selection on resize ([handleResize]), the descriptor strings
    ([getWidths], [createSrcSet]), and the preload effect on [document.head].

    Two revisions of the component are embedded.  The top level follows the
    revision that takes an [origin] prop; module [ImageTsx] follows
    [src/Image.tsx], which has no such prop and qualifies paths with
    [window.location.origin]. *)

From Stdlib Require Import ZArith List String Ascii Bool Lia.
From Stdlib Require Import Numbers.DecimalString Numbers.DecimalZ Numbers.DecimalPos.
From Stdlib Require Import Sorting.Sorted Sorting.Permutation.
Import ListNotations.

Open Scope string_scope.
Open Scope Z_scope.

(** ** Data *)

(** [Size] is imported from [./types]; the component reads the two fields
    [width] and [height].  They are JS numbers, taken here at integer values
    (the pixel sizes of the catalog). *)
Record Size : Type := mkSize { width : Z; height : Z }.

Definition __DEFAULT_SIZES__ : list Size :=
  [ mkSize 320 320; mkSize 480 480; mkSize 768 768; mkSize 1024 1024;
    mkSize 1440 1440; mkSize 1920 1920; mkSize 2560 2560; mkSize 3840 3840 ].

(** ** Breakpoint selection: the body of [handleResize] *)

(** One turn of the [for ... of] loop: [currSize] is [undefined] ([None]) or
    a size; it is replaced when it is undefined or strictly narrower. *)
Definition handleResize_step (currSize : option Size) (size : Size) : option Size :=
  match currSize with
  | None => Some size
  | Some c => if width c <? width size then Some size else currSize
  end.

(** The value handed to [setCurrentSize]. *)
Definition handleResize (sizes : list Size) (viewportWidth : Z) : option Size :=
  fold_left handleResize_step
            (filter (fun s => width s <=? viewportWidth) sizes)
            None.

(** The same loop with a ghost index: every element carries its position in
    [sizes], so that the loop also tells which array slot it picked. *)
Definition indexed {A : Type} (l : list A) : list (nat * A) :=
  combine (seq 0 (List.length l)) l.

Definition handleResize_step_at (curr : option (nat * Size)) (e : nat * Size)
  : option (nat * Size) :=
  match curr with
  | None => Some e
  | Some c => if width (snd c) <? width (snd e) then Some e else curr
  end.

Definition handleResize_at (sizes : list Size) (viewportWidth : Z)
  : option (nat * Size) :=
  fold_left handleResize_step_at
            (filter (fun e => width (snd e) <=? viewportWidth) (indexed sizes))
            None.

Definition selectedIndex (sizes : list Size) (viewportWidth : Z) : option nat :=
  option_map fst (handleResize_at sizes viewportWidth).

(** What the loop variable of [handleResize] satisfies after the loop has gone
    through the array prefix [seen]. *)
Definition widestSoFar (viewportWidth : Z) (seen : list Size)
           (curr : option Size) : Prop :=
  match curr with
  | Some b =>
      exists before after,
        seen = (before ++ b :: after)%list /\
        width b <= viewportWidth /\
        (forall x, In x before -> width x <= viewportWidth -> width x < width b) /\
        (forall x, In x after -> width x <= viewportWidth -> width x <= width b)
  | None => forall x, In x seen -> viewportWidth < width x
  end.

(** Two states of the indexed loop that hold the same slot and the same
    width, whatever the heights. *)
Definition sameSlot (a b : option (nat * Size)) : Prop :=
  match a, b with
  | None, None => True
  | Some (i, x), Some (j, y) => i = j /\ width x = width y
  | _, _ => False
  end.

(** The array element at the selected slot, if a slot was selected. *)
Definition elementAt (sizes : list Size) (slot : option nat) : option Size :=
  match slot with
  | Some i => nth_error sizes i
  | None => None
  end.

(** ** Descriptor strings *)

(** A number inside a template literal, for an integer value: its decimal
    digits, with a leading minus sign below zero. *)
Definition numToString (n : Z) : string :=
  NilZero.string_of_int (Z.to_int n).

(** [Array.prototype.join] on an array of strings. *)
Definition join (parts : list string) (sep : string) : string :=
  String.concat sep parts.

(** Reading a decimal numeral back as an integer. *)
Definition readNumber (s : string) : option Z :=
  option_map Z.of_int (NilZero.int_of_string s).

(** The template of [getWidths]. *)
Definition widthClause (s : Size) : string :=
  "(max-width: " ++ numToString (width s) ++ "px) "
    ++ numToString (width s) ++ "px".

Definition getWidths (sizes : list Size) : string :=
  join (map widthClause sizes) ", ".

(** [process.env.NODE_ENV === "production"]; the variable may be unset. *)
Definition isProduction (NODE_ENV : option string) : bool :=
  match NODE_ENV with
  | Some v => String.eqb v "production"
  | None => false
  end.

(** [!origin] for an optional string: true when the prop is absent and when
    it is the empty string. *)
Definition notOrigin (origin : option string) : bool :=
  match origin with
  | None => true
  | Some o => String.eqb o ""
  end.

(** The string [origin] coerces to under [+]; only reached when [origin] is
    truthy. *)
Definition originText (origin : option string) : string :=
  match origin with
  | None => "undefined"
  | Some o => o
  end.

(** [src.startsWith("/")]. *)
Definition startsWithSlash (src : string) : bool := String.prefix "/" src.

(** The value of the local [trueSrc] when [createSrcSet] reaches its
    [return]. *)
Definition trueSrc (src : string) (origin : option string)
           (NODE_ENV : option string) : string :=
  if notOrigin origin then
    "//wsrv.nl?url=" ++ src
  else if isProduction NODE_ENV then
    let srcWithOrigin :=
      if startsWithSlash src
      then originText origin ++ src
      else originText origin ++ "/" ++ src in
    "//wsrv.nl?url=" ++ srcWithOrigin
  else src.

(** The template of [createSrcSet], for a given [trueSrc]. *)
Definition candidate (base : string) (s : Size) : string :=
  base ++ "?w=" ++ numToString (width s) ++ "&h=" ++ numToString (height s)
       ++ " " ++ numToString (width s) ++ "w".

Definition createSrcSet (src : string) (sizes : list Size)
           (origin : option string) (NODE_ENV : option string) : string :=
  join (map (candidate (trueSrc src origin NODE_ENV)) sizes) ", ".

(** How many times a character occurs in a string. *)
Fixpoint occurrences (c : ascii) (s : string) : nat :=
  match s with
  | EmptyString => 0%nat
  | String d s' => ((if Ascii.eqb c d then 1 else 0) + occurrences c s')%nat
  end.

(** ** How a call ends *)

(** The two contract errors the design names, and the way a JS call
    completes: with a value, or by throwing. *)
Inductive ContractError : Type := InvalidCatalog | InvalidReference.

Inductive Completion (A : Type) : Type :=
| Returns (a : A)
| Throws (e : ContractError).
Arguments Returns {A} a.
Arguments Throws {A} e.

Record Descriptor : Type := mkDescriptor { sizeSet : string; srcSet : string }.

(** The first two statements of the component body:
    [const sizeSet = getWidths(sizes); const srcSet = createSrcSet(src, sizes, origin);]
    Neither callee has a [throw], so the pair is always produced. *)
Definition buildDescriptor (src : string) (sizes : list Size)
           (origin : option string) (NODE_ENV : option string)
  : Completion Descriptor :=
  Returns (mkDescriptor (getWidths sizes) (createSrcSet src sizes origin NODE_ENV)).

(** The URL resolution step of [createSrcSet] on its own. *)
Definition resolveSrc (src : string) (origin : option string)
           (NODE_ENV : option string) : Completion string :=
  Returns (trueSrc src origin NODE_ENV).

(** ** The preload effect on [document.head] *)

(** A [<link>] element with the attributes the effect sets or queries; an
    attribute that was never set is [None]. *)
Record HTMLLinkElement : Type := mkLink {
  rel : option string;
  href : option string;
  as_ : option string;
  imageSrcset : option string;
  imageSizes : option string
}.

(** [document.createElement("link")]. *)
Definition createLink : HTMLLinkElement := mkLink None None None None None.

(** A child of [document.head]: a link, or an element of another tag. *)
Inductive HeadChild : Type :=
| LinkEl (l : HTMLLinkElement)
| OtherEl (tagName : string).

Definition Head : Type := list HeadChild.

Inductive AttrName : Type := A_href | A_as | A_imageSrcset | A_imageSizes.

Definition getAttribute (l : HTMLLinkElement) (a : AttrName) : option string :=
  match a with
  | A_href => href l
  | A_as => as_ l
  | A_imageSrcset => imageSrcset l
  | A_imageSizes => imageSizes l
  end.

Definition attrIs (l : HTMLLinkElement) (c : AttrName * string) : bool :=
  match getAttribute l (fst c) with
  | Some v => String.eqb v (snd c)
  | None => false
  end.

(** Whether a child is a link whose attributes have exactly the given
    values: what [link[a1="v1"]...[an="vn"]] denotes once the selector text
    has been read and [v1 ... vn] are the values it was found to hold. *)
Definition matchesLink (conds : list (AttrName * string)) (c : HeadChild) : bool :=
  match c with
  | LinkEl l => forallb (attrIs l) conds
  | OtherEl _ => false
  end.

(** The double quote character. *)
Definition dq : ascii := Ascii false true false false false true false false.

(** A value between double quotes, the way the selectors of the source
    write it: the value is pasted in as it is, nothing is escaped. *)
Definition quoted (v : string) : string := String dq (v ++ String dq "").

(** The text of the first selector, [link[href=(dq)//wsrv.nl(dq)]]. *)
Definition preconnectSelector : string :=
  "link[href=" ++ quoted "//wsrv.nl" ++ "]".

(** The text of the second selector, the template literal
    [link[as=(dq)image(dq)][imageSrcset=(dq)${srcSet}(dq)][imageSizes=(dq)${sizeSet}(dq)]]. *)
Definition preloadSelector (srcSet sizeSet : string) : string :=
  "link[as=" ++ quoted "image" ++ "][imageSrcset=" ++ quoted srcSet
    ++ "][imageSizes=" ++ quoted sizeSet ++ "]".

(** [head.querySelector] belongs to the document, not to this repository.
    How the document reads selector text is a parameter: for a text it gives
    the test the selector denotes, or [None] for a text it rejects, in which
    case [querySelector] throws a [SyntaxError]. *)
Definition SelectorEngine : Type := string -> option (HeadChild -> bool).

(** How a call into the document ends. *)
Inductive DomResult (A : Type) : Type :=
| DomOk (a : A)
| DomSyntaxError.
Arguments DomOk {A} a.
Arguments DomSyntaxError {A}.

(** The first child, in document order, that the selector selects. *)
Definition querySelector (engine : SelectorEngine) (selector : string)
           (head : Head) : DomResult (option HeadChild) :=
  match engine selector with
  | Some denotes => DomOk (find denotes head)
  | None => DomSyntaxError
  end.

Definition appendChild (head : Head) (c : HeadChild) : Head := (head ++ [c])%list.

Definition newPreconnectLink : HTMLLinkElement :=
  let l := createLink in
  let l := mkLink (Some "preconnect") (href l) (as_ l) (imageSrcset l) (imageSizes l) in
  mkLink (rel l) (Some "//wsrv.nl") (as_ l) (imageSrcset l) (imageSizes l).

Definition newPreloadLink (srcSet sizeSet : string) : HTMLLinkElement :=
  let l := createLink in
  let l := mkLink (Some "preload") (href l) (as_ l) (imageSrcset l) (imageSizes l) in
  let l := mkLink (rel l) (href l) (Some "image") (imageSrcset l) (imageSizes l) in
  let l := mkLink (rel l) (href l) (as_ l) (Some srcSet) (imageSizes l) in
  mkLink (rel l) (href l) (as_ l) (imageSrcset l) (Some sizeSet).

(** Code that works on [document.head] and may be cut short by an exception:
    it is given the head and leaves the head as it is at its end or at the
    throw, with its result or the exception. *)
Definition Dom (A : Type) : Type := Head -> Head * DomResult A.

Definition ret {A : Type} (a : A) : Dom A := fun head => (head, DomOk a).

Definition bind {A B : Type} (c : Dom A) (k : A -> Dom B) : Dom B :=
  fun head =>
    match c head with
    | (head', DomOk a) => k a head'
    | (head', DomSyntaxError) => (head', DomSyntaxError)
    end.

Notation "x <- c ;; k" := (bind c (fun x => k))
  (at level 61, c at next level, right associativity).

Definition querySelectorIn (engine : SelectorEngine) (selector : string)
  : Dom (option HeadChild) :=
  fun head => (head, querySelector engine selector head).

Definition appendChildTo (c : HeadChild) : Dom unit :=
  fun head => (appendChild head c, DomOk tt).

(** The first [if (!preconnectLink)] block, with its lookup. *)
Definition ensurePreconnect (engine : SelectorEngine) : Dom unit :=
  preconnectLink <- querySelectorIn engine preconnectSelector ;;
  match preconnectLink with
  | None => appendChildTo (LinkEl newPreconnectLink)
  | Some _ => ret tt
  end.

(** The second [if (!preloadLink)] block, with its lookup. *)
Definition ensurePreload (engine : SelectorEngine) (sizeSet srcSet : string)
  : Dom unit :=
  preloadLink <- querySelectorIn engine (preloadSelector srcSet sizeSet) ;;
  match preloadLink with
  | None => appendChildTo (LinkEl (newPreloadLink srcSet sizeSet))
  | Some _ => ret tt
  end.

(** The [if (preload) { ... }] part of the effect. *)
Definition preloadEffect (engine : SelectorEngine) (preload : bool)
           (sizeSet srcSet : string) : Dom unit :=
  if preload then
    _ <- ensurePreconnect engine ;; ensurePreload engine sizeSet srcSet
  else ret tt.

(** The number of children that are links with exactly the given attribute
    values. *)
Definition countMatches (conds : list (AttrName * string)) (head : Head) : nat :=
  List.length (filter (matchesLink conds) head).

(** What a block that ran to its end has done to the head, when its lookup
    applied the test [denotes]. *)
Definition ensureLink (denotes : HeadChild -> bool) (l : HTMLLinkElement)
           (head : Head) : Head :=
  match find denotes head with
  | None => appendChild head (LinkEl l)
  | Some _ => head
  end.

(** *** What the document is taken to do with the two selectors *)

Definition isNewline (c : ascii) : bool :=
  let n := nat_of_ascii c in ((n =? 10) || (n =? 12) || (n =? 13))%nat.

Definition isHexDigit (c : ascii) : bool :=
  let n := nat_of_ascii c in
  (((48 <=? n) && (n <=? 57)) || ((65 <=? n) && (n <=? 70))
   || ((97 <=? n) && (n <=? 102)))%nat.

Definition isNul (c : ascii) : bool := (nat_of_ascii c =? 0)%nat.

(** A character that stands for itself inside a double-quoted CSS string. *)
Definition plainChar (c : ascii) : bool :=
  negb (Ascii.eqb c dq || Ascii.eqb c "\" || isNewline c || isNul c).

(** A character that, after a backslash, stands for itself. *)
Definition escapable (c : ascii) : bool :=
  negb (isHexDigit c || isNewline c || isNul c).

(** The value a double-quoted CSS string holds when the text between its
    quotes is [s], for the texts covered here: plain characters stand for
    themselves, and a backslash followed by a character that is no hex
    digit and no line break stands for that character.  [None] is given for
    every other text (a bare double quote, a line break, a NUL, a hex
    escape, a backslash at the end): about those nothing is assumed. *)
Fixpoint cssString (s : string) : option string :=
  match s with
  | EmptyString => Some EmptyString
  | String c rest =>
      if Ascii.eqb c "\" then
        match rest with
        | EmptyString => None
        | String e rest' =>
            if escapable e
            then option_map (String e) (cssString rest')
            else None
        end
      else if plainChar c then option_map (String c) (cssString rest)
      else None
  end.

(** What CSS prescribes for the two selectors, as far as it is relied on:
    the first selector selects the links whose [href] is [//wsrv.nl]; the
    second, when the two pasted texts are covered by [cssString], selects
    the links whose [as] is [image] and whose [imagesrcset] and [imagesizes]
    are the values those texts hold. *)
Definition engineContract (engine : SelectorEngine) : Prop :=
  engine preconnectSelector = Some (matchesLink [(A_href, "//wsrv.nl")]) /\
  forall srcSet sizeSet heldSrcSet heldSizes,
    cssString srcSet = Some heldSrcSet ->
    cssString sizeSet = Some heldSizes ->
    engine (preloadSelector srcSet sizeSet)
    = Some (matchesLink [(A_as, "image"); (A_imageSrcset, heldSrcSet);
                         (A_imageSizes, heldSizes)]).

(** *** An engine that obeys the contract *)

Fixpoint stripPrefix (p s : string) : option string :=
  match p with
  | EmptyString => Some s
  | String a p' =>
      match s with
      | EmptyString => None
      | String b s' => if Ascii.eqb a b then stripPrefix p' s' else None
      end
  end.

(** Reads the rest of a double-quoted string up to its closing quote: the
    value held and the text after the quote. *)
Fixpoint readValue (s : string) : option (string * string) :=
  match s with
  | EmptyString => None
  | String c rest =>
      if Ascii.eqb c "\" then
        match rest with
        | EmptyString => None
        | String e rest' =>
            if escapable e then
              match readValue rest' with
              | Some (v, after) => Some (String e v, after)
              | None => None
              end
            else None
        end
      else if Ascii.eqb c dq then Some (EmptyString, rest)
      else if plainChar c then
        match readValue rest with
        | Some (v, after) => Some (String c v, after)
        | None => None
        end
      else None
  end.

(** An engine that reads the two selectors of the effect and rejects every
    other text. *)
Definition templateEngine : SelectorEngine :=
  fun text =>
    if String.eqb text preconnectSelector
    then Some (matchesLink [(A_href, "//wsrv.nl")])
    else
      match stripPrefix ("link[as=" ++ quoted "image" ++ "][imageSrcset="
                           ++ String dq "") text with
      | None => None
      | Some t1 =>
          match readValue t1 with
          | None => None
          | Some (heldSrcSet, t2) =>
              match stripPrefix ("][imageSizes=" ++ String dq "") t2 with
              | None => None
              | Some t3 =>
                  match readValue t3 with
                  | None => None
                  | Some (heldSizes, t4) =>
                      if String.eqb t4 "]"
                      then Some (matchesLink
                                   [(A_as, "image"); (A_imageSrcset, heldSrcSet);
                                    (A_imageSizes, heldSizes)])
                      else None
                  end
              end
          end
      end.

(** ** [src/Image.tsx]: the revision without the [origin] prop *)

Module ImageTsx.

(** Regular expressions, as far as [isDomain] uses them. *)
Inductive regex : Type :=
| NoMatch
| Eps
| Lit (c : ascii)
| Range (lo hi : ascii)
| Alt (r s : regex)
| Cat (r s : regex)
| Star (r : regex).

Definition Opt (r : regex) : regex := Alt r Eps.
Definition Plus (r : regex) : regex := Cat r (Star r).
Definition AtLeast2 (r : regex) : regex := Cat r (Cat r (Star r)).

Fixpoint Str (s : string) : regex :=
  match s with
  | EmptyString => Eps
  | String c s' => Cat (Lit c) (Str s')
  end.

Definition inRange (lo hi c : ascii) : bool :=
  ((nat_of_ascii lo <=? nat_of_ascii c) && (nat_of_ascii c <=? nat_of_ascii hi))%nat.

Definition toLower (c : ascii) : ascii :=
  if inRange "A" "Z" c then ascii_of_nat (nat_of_ascii c + 32) else c.

Definition toUpper (c : ascii) : ascii :=
  if inRange "a" "z" c then ascii_of_nat (nat_of_ascii c - 32) else c.

(** Matching one character under the [i] flag. *)
Definition litMatches (a c : ascii) : bool :=
  Ascii.eqb (toUpper a) (toUpper c).

Definition rangeMatches (lo hi c : ascii) : bool :=
  inRange lo hi c || inRange lo hi (toLower c) || inRange lo hi (toUpper c).

Fixpoint nullable (r : regex) : bool :=
  match r with
  | NoMatch => false
  | Eps => true
  | Lit _ => false
  | Range _ _ => false
  | Alt r s => nullable r || nullable s
  | Cat r s => nullable r && nullable s
  | Star _ => true
  end.

(** What remains to be matched after reading [c]. *)
Fixpoint deriv (c : ascii) (r : regex) : regex :=
  match r with
  | NoMatch => NoMatch
  | Eps => NoMatch
  | Lit a => if litMatches a c then Eps else NoMatch
  | Range lo hi => if rangeMatches lo hi c then Eps else NoMatch
  | Alt r s => Alt (deriv c r) (deriv c s)
  | Cat r s =>
      if nullable r
      then Alt (Cat (deriv c r) s) (deriv c s)
      else Cat (deriv c r) s
  | Star r => Cat (deriv c r) (Star r)
  end.

(** [/^r/i.test(s)]: some prefix of [s] matches [r]. *)
Fixpoint test (r : regex) (s : string) : bool :=
  nullable r ||
  match s with
  | EmptyString => false
  | String c s' => test (deriv c r) s'
  end.

(** [/^(https?:\/\/|www\.)/i] *)
Definition schemeOrWww : regex :=
  Alt (Cat (Str "http") (Cat (Opt (Lit "s")) (Str "://"))) (Str "www.").

(** [/^[a-z0-9]+([\-\.]{1}[a-z0-9]+)*\.[a-z]{2,}/i] *)
Definition alnum : regex := Alt (Range "a" "z") (Range "0" "9").

Definition hostLike : regex :=
  Cat (Plus alnum)
      (Cat (Star (Cat (Alt (Lit "-") (Lit ".")) (Plus alnum)))
           (Cat (Lit ".") (AtLeast2 (Range "a" "z")))).

Definition isDomain (path : string) : bool :=
  test schemeOrWww path || test hostLike path.

(** The value of [trueSrc] at the [return] of this revision's
    [createSrcSet]; [locationOrigin] is [window.location.origin]. *)
Definition trueSrc (src : string) (locationOrigin : string)
           (NODE_ENV : option string) : string :=
  if isProduction NODE_ENV then
    let qualified :=
      if negb (isDomain src) then
        if startsWithSlash src
        then locationOrigin ++ src
        else locationOrigin ++ "/" ++ src
      else src in
    "//wsrv.nl?url=" ++ qualified
  else src.

(** The third parameter of the source ([height], defaulted and never read)
    is left out. *)
Definition createSrcSet (src : string) (sizes : list Size)
           (locationOrigin : string) (NODE_ENV : option string) : string :=
  join (map (candidate (trueSrc src locationOrigin NODE_ENV)) sizes) ", ".

End ImageTsx.

(** ** Notions used to state further properties *)

(** The characters a printed integer is made of. *)
Definition isNumChar (c : ascii) : bool :=
  Ascii.eqb c "-" || ((48 <=? nat_of_ascii c) && (nat_of_ascii c <=? 57))%nat.

Fixpoint allChars (p : ascii -> bool) (s : string) : bool :=
  match s with
  | EmptyString => true
  | String c s' => p c && allChars p s'
  end.

(** What it means for a string to match one of the patterns of [isDomain],
    read under the [i] flag: the usual meaning of a regular expression. *)
Inductive Matches : ImageTsx.regex -> string -> Prop :=
| MEps : Matches ImageTsx.Eps ""
| MLit (a c : ascii) :
    ImageTsx.litMatches a c = true -> Matches (ImageTsx.Lit a) (String c "")
| MRange (lo hi c : ascii) :
    ImageTsx.rangeMatches lo hi c = true ->
    Matches (ImageTsx.Range lo hi) (String c "")
| MAltL (r s : ImageTsx.regex) (u : string) :
    Matches r u -> Matches (ImageTsx.Alt r s) u
| MAltR (r s : ImageTsx.regex) (u : string) :
    Matches s u -> Matches (ImageTsx.Alt r s) u
| MCat (r s : ImageTsx.regex) (u v : string) :
    Matches r u -> Matches s v -> Matches (ImageTsx.Cat r s) (u ++ v)
| MStar0 (r : ImageTsx.regex) : Matches (ImageTsx.Star r) ""
| MStarS (r : ImageTsx.regex) (u v : string) :
    Matches r u -> Matches (ImageTsx.Star r) v ->
    Matches (ImageTsx.Star r) (u ++ v).

(** ASCII letters and digits. *)
Definition isLetter (c : ascii) : bool :=
  ImageTsx.inRange "a" "z" c || ImageTsx.inRange "A" "Z" c.

Definition isAlnum (c : ascii) : bool :=
  isLetter c || ImageTsx.inRange "0" "9" c.

(** Equality of two strings up to the case of ASCII letters. *)
Fixpoint sameIgnoringCase (s p : string) : bool :=
  match s, p with
  | EmptyString, EmptyString => true
  | String a s', String c p' => ImageTsx.litMatches a c && sameIgnoringCase s' p'
  | _, _ => false
  end.

(** Whether a match of the pattern can begin with the character. *)
Fixpoint canStart (r : ImageTsx.regex) (c : ascii) : bool :=
  match r with
  | ImageTsx.NoMatch => false
  | ImageTsx.Eps => false
  | ImageTsx.Lit a => ImageTsx.litMatches a c
  | ImageTsx.Range lo hi => ImageTsx.rangeMatches lo hi c
  | ImageTsx.Alt r s => canStart r c || canStart s c
  | ImageTsx.Cat r s => canStart r c || (ImageTsx.nullable r && canStart s c)
  | ImageTsx.Star r => canStart r c
  end.

(** ** The rendered dimensions and the life of the effect *)

(** The value of a JSX prop: absent, a number or a string. *)
Inductive PropValue : Type :=
| PUndefined
| PNumber (n : Z)
| PString (s : string).

(** [v && `${v}px`] where [v] is [currentSize?.height] or
    [currentSize?.width]: [undefined] stays [undefined], the falsy number 0
    stays 0, any other number becomes a pixel string. *)
Definition dimensionProp (v : option Z) : PropValue :=
  match v with
  | None => PUndefined
  | Some n => if n =? 0 then PNumber n else PString (numToString n ++ "px")
  end.

Definition heightProp (currentSize : option Size) : PropValue :=
  dimensionProp (option_map height currentSize).

Definition widthProp (currentSize : option Size) : PropValue :=
  dimensionProp (option_map width currentSize).

(** [width <= viewportWidth] when [viewportWidth] is [body?.clientWidth]:
    with no body it is [undefined], and no number is [<= undefined]. *)
Definition viewportFits (viewportWidth : option Z) (w : Z) : bool :=
  match viewportWidth with
  | Some v => w <=? v
  | None => false
  end.

(** [handleResize] as the effect runs it, reading the width off the body. *)
Definition handleResizeOn (sizes : list Size) (clientWidth : option Z)
  : option Size :=
  fold_left handleResize_step
            (filter (fun s => viewportFits clientWidth (width s)) sizes)
            None.

(** The effect as the component runs it: the descriptor strings are the ones
    computed from the props. *)
Definition mountPreload (engine : SelectorEngine) (src : string)
           (sizes : list Size) (origin NODE_ENV : option string) : Dom unit :=
  preloadEffect engine true (getWidths sizes)
                (createSrcSet src sizes origin NODE_ENV).

(** Modelled from the spec: the resize listeners of [window] belong to the
    document, not to this repository.  A listener is known by the identity
    of its callback (a number here); adding one that is already there does
    nothing, removing takes out the one registration of that callback. *)
Definition addEventListener (listeners : list nat) (h : nat) : list nat :=
  if existsb (Nat.eqb h) listeners then listeners else (listeners ++ [h])%list.

Fixpoint removeEventListener (listeners : list nat) (h : nat) : list nat :=
  match listeners with
  | [] => []
  | k :: rest =>
      if Nat.eqb h k then rest else k :: removeEventListener rest h
  end.

Record Page : Type := mkPage {
  page_head : Head;
  page_listeners : list nat;
  page_clientWidth : option Z
}.

(** What a run of the effect that reached its end hands back: the value
    given to [setCurrentSize] by the first [handleResize()], and the cleanup
    function. *)
Record Mounted : Type := mkMounted {
  measured : option Size;
  cleanup : Page -> Page
}.

(** The body of the [useEffect] callback; [h] is the identity of the
    [handleResize] closure this run creates.  An exception in the preload
    block ends the run there: the head keeps what was appended before the
    throw, no listener is added, nothing is measured and no cleanup is
    returned. *)
Definition effect (engine : SelectorEngine) (preload : bool)
           (sizeSet srcSet : string) (sizes : list Size)
           (h : nat) (pg : Page) : Page * DomResult Mounted :=
  match preloadEffect engine preload sizeSet srcSet (page_head pg) with
  | (head', DomOk _) =>
      (mkPage head' (addEventListener (page_listeners pg) h) (page_clientWidth pg),
       DomOk (mkMounted
                (handleResizeOn sizes (page_clientWidth pg))
                (fun p => mkPage (page_head p)
                                 (removeEventListener (page_listeners p) h)
                                 (page_clientWidth p))))
  | (head', DomSyntaxError) =>
      (mkPage head' (page_listeners pg) (page_clientWidth pg), DomSyntaxError)
  end.

(** * Properties *)

(** ** Breakpoint selection *)

Section Selection.

Variable viewportWidth : Z.

Let fits (s : Size) : bool := width s <=? viewportWidth.

Lemma widestSoFar_skip seen curr x :
  widestSoFar viewportWidth seen curr -> fits x = false ->
  widestSoFar viewportWidth (seen ++ [x]) curr.
Proof.
  unfold fits. intros H Hx. apply Z.leb_gt in Hx.
  destruct curr as [b|]; simpl in *.
  - destruct H as (before & after & -> & Hb & Hlt & Hle).
    exists before, (after ++ [x])%list. repeat split; auto.
    + now rewrite <- app_assoc.
    + intros y Hy Hq. apply in_app_or in Hy. destruct Hy as [Hy|[->|[]]]; auto.
      lia.
  - intros y Hy. apply in_app_or in Hy. destruct Hy as [Hy|[->|[]]]; auto.
Qed.

Lemma widestSoFar_step seen curr x :
  widestSoFar viewportWidth seen curr -> fits x = true ->
  widestSoFar viewportWidth (seen ++ [x]) (handleResize_step curr x).
Proof.
  unfold fits. intros H Hx. apply Z.leb_le in Hx.
  destruct curr as [b|]; simpl in *.
  - destruct H as (before & after & -> & Hb & Hlt & Hle).
    destruct (width b <? width x) eqn:E.
    + apply Z.ltb_lt in E. simpl.
      exists (before ++ b :: after)%list, []. repeat split; auto.
      * intros y Hy Hq. apply in_app_or in Hy.
        destruct Hy as [Hy|[->|Hy]]; auto.
        -- specialize (Hlt _ Hy Hq). lia.
        -- specialize (Hle _ Hy Hq). lia.
      * intros y [].
    + apply Z.ltb_ge in E. simpl.
      exists before, (after ++ [x])%list. repeat split; auto.
      * now rewrite <- app_assoc.
      * intros y Hy Hq. apply in_app_or in Hy.
        destruct Hy as [Hy|[->|[]]]; auto.
  - exists seen, []. repeat split; auto.
    + intros y Hy Hq. specialize (H _ Hy). lia.
    + intros y [].
Qed.

Lemma widestSoFar_loop rest : forall seen curr,
  widestSoFar viewportWidth seen curr ->
  widestSoFar viewportWidth (seen ++ rest)
              (fold_left handleResize_step (filter fits rest) curr).
Proof.
  induction rest as [|x rest IH]; intros seen curr H; simpl.
  - now rewrite app_nil_r.
  - replace (seen ++ x :: rest)%list with ((seen ++ [x]) ++ rest)%list
      by (rewrite <- app_assoc; reflexivity).
    destruct (fits x) eqn:E; simpl; apply IH.
    + now apply widestSoFar_step.
    + now apply widestSoFar_skip.
Qed.

Lemma handleResize_widest sizes :
  widestSoFar viewportWidth sizes (handleResize sizes viewportWidth).
Proof.
  unfold handleResize.
  apply (widestSoFar_loop sizes [] None). intros x [].
Qed.

End Selection.

(** C1. For every catalog and viewport width, [handleResize] yields a
    breakpoint of the catalog whose width is at most the viewport width and
    at least the width of every other such breakpoint; every breakpoint
    before it in the catalog that fits the viewport is strictly narrower, so
    among equal maxima the first one is taken; and the result is [undefined]
    exactly when no breakpoint fits. *)
Theorem handleResize_first_widest_fitting (sizes : list Size) (viewportWidth : Z) :
  match handleResize sizes viewportWidth with
  | Some b =>
      exists before after,
        sizes = (before ++ b :: after)%list /\
        width b <= viewportWidth /\
        (forall x, In x before -> width x <= viewportWidth -> width x < width b) /\
        (forall x, In x after -> width x <= viewportWidth -> width x <= width b)
  | None => True
  end /\
  (handleResize sizes viewportWidth = None <->
   forall x, In x sizes -> viewportWidth < width x).
Proof.
  pose proof (handleResize_widest viewportWidth sizes) as H.
  unfold widestSoFar in H.
  destruct (handleResize sizes viewportWidth) as [b|]; split; auto.
  - split; [discriminate|]. intros Hall.
    destruct H as (before & after & -> & Hb & _).
    specialize (Hall b (in_elt b before after)). lia.
  - split; auto.
Qed.

(** The indexed loop and the loop of the source walk in step: the indexed
    state projects to the plain one and its index points at its element. *)
Lemma handleResize_at_loop (vw : Z) (rest : list Size) :
  forall (seen : list Size) (curr : option (nat * Size)),
    (forall i b, curr = Some (i, b) -> nth_error (seen ++ rest) i = Some b) ->
    let r := fold_left handleResize_step_at
               (filter (fun e => width (snd e) <=? vw)
                       (combine (seq (List.length seen) (List.length rest)) rest))
               curr in
    fold_left handleResize_step (filter (fun s => width s <=? vw) rest)
              (option_map snd curr) = option_map snd r /\
    (forall i b, r = Some (i, b) -> nth_error (seen ++ rest) i = Some b).
Proof.
  induction rest as [|x rest IH]; intros seen curr Hc; simpl.
  - split; auto.
  - assert (Hx : nth_error (seen ++ x :: rest) (List.length seen) = Some x).
    { rewrite nth_error_app2 by lia. now rewrite Nat.sub_diag. }
    assert (Hre : (seen ++ x :: rest = (seen ++ [x]) ++ rest)%list)
      by (rewrite <- app_assoc; reflexivity).
    assert (Hlen : List.length (seen ++ [x]) = S (List.length seen))
      by (rewrite length_app; simpl; lia).
    destruct (width x <=? vw) eqn:E; simpl.
    + specialize (IH (seen ++ [x])%list
                     (handleResize_step_at curr (List.length seen, x))).
      rewrite Hlen, <- Hre in IH.
      assert (Hproj : option_map snd (handleResize_step_at curr (List.length seen, x))
                      = handleResize_step (option_map snd curr) x).
      { destruct curr as [[i b]|]; simpl; auto.
        destruct (width b <? width x); reflexivity. }
      rewrite <- Hproj. apply IH.
      intros i b Hi. destruct curr as [[j c]|]; simpl in Hi.
      * destruct (width c <? width x).
        -- inversion Hi; subst. exact Hx.
        -- apply Hc. exact Hi.
      * inversion Hi; subst. exact Hx.
    + specialize (IH (seen ++ [x])%list curr).
      rewrite Hlen, <- Hre in IH. apply IH. exact Hc.
Qed.

Lemma handleResize_elementAt (sizes : list Size) (vw : Z) :
  handleResize sizes vw = elementAt sizes (selectedIndex sizes vw).
Proof.
  unfold handleResize, selectedIndex, handleResize_at, indexed.
  destruct (handleResize_at_loop vw sizes [] None) as [Hp Hn];
    [discriminate|].
  simpl in Hp, Hn. rewrite Hp.
  destruct (fold_left handleResize_step_at _ None) as [[i b]|] eqn:E; simpl; auto.
  symmetry. now apply Hn.
Qed.

(** The indexed loop on two arrays with the same widths stays in the same
    slot at every turn. *)
Lemma handleResize_at_widths (vw : Z) (l1 : list Size) :
  forall (l2 : list Size) (k : nat) (a b : option (nat * Size)),
    map width l1 = map width l2 ->
    sameSlot a b ->
    sameSlot
      (fold_left handleResize_step_at
         (filter (fun e => width (snd e) <=? vw)
                 (combine (seq k (List.length l1)) l1)) a)
      (fold_left handleResize_step_at
         (filter (fun e => width (snd e) <=? vw)
                 (combine (seq k (List.length l2)) l2)) b).
Proof.
  induction l1 as [|x l1 IH]; intros [|y l2] k a b Hw Hab;
    simpl in Hw; try discriminate; simpl; auto.
  injection Hw as Hxy Hw. rewrite <- Hxy.
  destruct (width x <=? vw); simpl; apply IH; auto.
  destruct a as [[i u]|], b as [[j v]|]; simpl in *; try tauto.
  destruct Hab as [-> Huv]. rewrite <- Huv, <- Hxy.
  destruct (width u <? width x); simpl; auto.
Qed.

(** C10. For two catalogs with the same sequence of widths, whatever their
    heights, and any viewport width, the loop selects the same slot (or none
    in both), and what each call hands to [setCurrentSize] is its own
    catalog's element at that slot. *)
Theorem selection_ignores_heights (c1 c2 : list Size) (viewportWidth : Z) :
  map width c1 = map width c2 ->
  selectedIndex c1 viewportWidth = selectedIndex c2 viewportWidth /\
  handleResize c1 viewportWidth = elementAt c1 (selectedIndex c1 viewportWidth) /\
  handleResize c2 viewportWidth = elementAt c2 (selectedIndex c1 viewportWidth).
Proof.
  intros Hw.
  assert (Hsel : selectedIndex c1 viewportWidth = selectedIndex c2 viewportWidth).
  { pose proof (handleResize_at_widths viewportWidth c1 c2 0%nat None None Hw I) as H.
    unfold selectedIndex, handleResize_at, indexed.
    destruct (fold_left _ _ None) as [[i u]|], (fold_left _ _ None) as [[j v]|];
      simpl in *; try tauto.
    destruct H as [-> _]. reflexivity. }
  split; [exact Hsel|]. split.
  - apply handleResize_elementAt.
  - rewrite Hsel. apply handleResize_elementAt.
Qed.

(** The claim at a catalog with a repeated width and at a copy of it with
    other heights: slot 1 in both. *)
Lemma selection_ignores_heights_witness :
  let c1 := [mkSize 320 568; mkSize 768 1024; mkSize 768 5] in
  let c2 := [mkSize 320 1; mkSize 768 2; mkSize 768 3] in
  map width c1 = map width c2 /\
  selectedIndex c1 800 = Some 1%nat /\
  (selectedIndex c1 800 = selectedIndex c2 800 /\
   handleResize c1 800 = elementAt c1 (selectedIndex c1 800) /\
   handleResize c2 800 = elementAt c2 (selectedIndex c1 800)).
Proof.
  split; [reflexivity|]. split; [reflexivity|].
  apply (selection_ignores_heights
           [mkSize 320 568; mkSize 768 1024; mkSize 768 5]
           [mkSize 320 1; mkSize 768 2; mkSize 768 3] 800).
  reflexivity.
Defined.

(** ** URL resolution *)

Lemma isProduction_true (NODE_ENV : option string) :
  isProduction NODE_ENV = true <-> NODE_ENV = Some "production".
Proof.
  destruct NODE_ENV as [v|]; simpl.
  - rewrite String.eqb_eq. split; congruence.
  - split; discriminate.
Qed.

Lemma isProduction_false (NODE_ENV : option string) :
  isProduction NODE_ENV = false <-> NODE_ENV <> Some "production".
Proof.
  rewrite <- isProduction_true. destruct (isProduction NODE_ENV); split; congruence.
Qed.

Lemma startsWithSlash_true (src : string) :
  startsWithSlash src = true <-> exists rest, src = String "/" rest.
Proof.
  unfold startsWithSlash. destruct src as [|c rest]; cbn [prefix].
  - split; [discriminate|]. intros [r Hr]. discriminate.
  - destruct (ascii_dec "/" c) as [<-|Hne].
    + destruct rest; split; eauto.
    + split; [discriminate|]. intros [r Hr]. congruence.
Qed.

Lemma notOrigin_given (o : string) : o <> "" -> notOrigin (Some o) = false.
Proof. intros H. simpl. now apply String.eqb_neq. Qed.

(** C2, counterexample. An origin that is supplied but empty counts as no
    origin: in development the path comes back proxy-wrapped, not
    unmodified. *)
Lemma empty_origin_wrapped_in_development :
  trueSrc "a.jpg" (Some "") (Some "development") = "//wsrv.nl?url=a.jpg" /\
  trueSrc "a.jpg" (Some "") (Some "development") <> "a.jpg".
Proof. split; [reflexivity | discriminate]. Qed.

Lemma trueSrc_origin_outside_production (src o : string) (NODE_ENV : option string) :
  o <> "" -> NODE_ENV <> Some "production" -> trueSrc src (Some o) NODE_ENV = src.
Proof.
  intros Ho Hdev. unfold trueSrc. rewrite (notOrigin_given o Ho).
  apply isProduction_false in Hdev. now rewrite Hdev.
Qed.

Lemma trueSrc_origin_production (src o : string) :
  o <> "" ->
  trueSrc src (Some o) (Some "production")
  = "//wsrv.nl?url=" ++ (if startsWithSlash src then o ++ src else o ++ "/" ++ src).
Proof.
  intros Ho. unfold trueSrc. rewrite (notOrigin_given o Ho). simpl.
  now destruct (startsWithSlash src).
Qed.

(** C2, amended. An origin given as the empty string is treated as no
    origin: the path is proxy-wrapped in every build mode.  For every path
    and every origin other than the empty string: outside production the
    path is returned unmodified; in production the result is the proxy
    endpoint followed by origin and path, with one ["/"] put between them
    exactly when the path does not start with ["/"]. *)
Theorem trueSrc_with_origin (src o : string) (NODE_ENV : option string) :
  (o = "" ->
   trueSrc src (Some o) NODE_ENV = trueSrc src None NODE_ENV /\
   trueSrc src (Some o) NODE_ENV = "//wsrv.nl?url=" ++ src) /\
  (o <> "" ->
   (NODE_ENV <> Some "production" -> trueSrc src (Some o) NODE_ENV = src) /\
   (NODE_ENV = Some "production" ->
    (forall rest, src = String "/" rest ->
       trueSrc src (Some o) NODE_ENV = "//wsrv.nl?url=" ++ o ++ src) /\
    ((forall rest, src <> String "/" rest) ->
       trueSrc src (Some o) NODE_ENV = "//wsrv.nl?url=" ++ o ++ "/" ++ src))).
Proof.
  split.
  - intros ->. split; reflexivity.
  - intros Ho. split.
    + now apply trueSrc_origin_outside_production.
    + intros ->. rewrite (trueSrc_origin_production src o Ho). split.
      * intros rest Hs.
        assert (E : startsWithSlash src = true)
          by (apply startsWithSlash_true; eauto).
        now rewrite E.
      * intros Hs.
        destruct (startsWithSlash src) eqn:E; [|reflexivity].
        apply startsWithSlash_true in E. destruct E as [rest Hr].
        now elim (Hs rest).
Qed.

Lemma trueSrc_with_origin_witness :
  trueSrc "a.jpg" (Some "") (Some "development")
    = trueSrc "a.jpg" None (Some "development") /\
  trueSrc "a.jpg" (Some "") (Some "production") = "//wsrv.nl?url=a.jpg" /\
  trueSrc "a.jpg" (Some "https://site") (Some "development") = "a.jpg" /\
  trueSrc "/a.jpg" (Some "https://site") (Some "production")
    = "//wsrv.nl?url=https://site/a.jpg" /\
  trueSrc "a.jpg" (Some "https://site") (Some "production")
    = "//wsrv.nl?url=https://site/a.jpg".
Proof.
  assert (Ho : "https://site" <> "") by discriminate.
  split; [|split; [|split; [|split]]].
  - apply (proj1 (trueSrc_with_origin "a.jpg" "" (Some "development")) eq_refl).
  - apply (proj1 (trueSrc_with_origin "a.jpg" "" (Some "production")) eq_refl).
  - apply (proj2 (trueSrc_with_origin "a.jpg" "https://site" (Some "development")) Ho).
    discriminate.
  - apply (proj1 (proj2 (proj2 (trueSrc_with_origin "/a.jpg" "https://site"
                                  (Some "production")) Ho) eq_refl) "a.jpg").
    reflexivity.
  - apply (proj2 (proj2 (proj2 (trueSrc_with_origin "a.jpg" "https://site"
                                  (Some "production")) Ho) eq_refl)).
    discriminate.
Defined.

(** C3, counterexample. [src/Image.tsx] takes no origin at all, and in
    development its [createSrcSet] leaves the path as it is. *)
Lemma ImageTsx_unwrapped_in_development :
  ImageTsx.trueSrc "https://x/y.jpg" "http://localhost:3000" (Some "development")
    = "https://x/y.jpg" /\
  ImageTsx.trueSrc "https://x/y.jpg" "http://localhost:3000" (Some "development")
    <> "//wsrv.nl?url=https://x/y.jpg".
Proof. split; [reflexivity | discriminate]. Qed.

(** C3, amended. In the revision with the [origin] prop, a path given
    without origin is proxy-wrapped in every build mode: the endpoint
    followed by the path unmodified.  In [src/Image.tsx] the path is wrapped
    in production only (after a path that is not a domain has been qualified
    with [window.location.origin]) and returned unmodified otherwise. *)
Theorem trueSrc_without_origin (src : string) (NODE_ENV : option string) :
  trueSrc src None NODE_ENV = "//wsrv.nl?url=" ++ src /\
  (forall loc,
     NODE_ENV <> Some "production" -> ImageTsx.trueSrc src loc NODE_ENV = src) /\
  (forall loc,
     NODE_ENV = Some "production" ->
     exists target,
       ImageTsx.trueSrc src loc NODE_ENV = "//wsrv.nl?url=" ++ target /\
       (ImageTsx.isDomain src = true -> target = src) /\
       (ImageTsx.isDomain src = false ->
        (forall rest, src = String "/" rest -> target = loc ++ src) /\
        ((forall rest, src <> String "/" rest) -> target = loc ++ "/" ++ src))).
Proof.
  split; [reflexivity|]. unfold ImageTsx.trueSrc. split.
  - intros loc Hdev. apply isProduction_false in Hdev. now rewrite Hdev.
  - intros loc Hprod. apply isProduction_true in Hprod. rewrite Hprod.
    destruct (ImageTsx.isDomain src); simpl.
    + exists src. repeat split; auto; discriminate.
    + destruct (startsWithSlash src) eqn:E; eexists; split; try reflexivity;
        (split; [discriminate|]); intros _; split; auto.
      * intros Hs. apply startsWithSlash_true in E. destruct E as [rest Hr].
        now elim (Hs rest).
      * intros rest Hr.
        assert (E' : startsWithSlash src = true)
          by (apply startsWithSlash_true; eauto).
        congruence.
Qed.

Lemma trueSrc_without_origin_witness :
  trueSrc "https://x/y.jpg" None (Some "development")
    = "//wsrv.nl?url=https://x/y.jpg" /\
  ImageTsx.trueSrc "https://x/y.jpg" "http://localhost:3000" (Some "development")
    = "https://x/y.jpg" /\
  exists target,
    ImageTsx.trueSrc "static/y.jpg" "https://site" (Some "production")
      = "//wsrv.nl?url=" ++ target.
Proof.
  split; [|split].
  - apply (trueSrc_without_origin "https://x/y.jpg" (Some "development")).
  - apply (proj1 (proj2 (trueSrc_without_origin "https://x/y.jpg"
                           (Some "development")))).
    discriminate.
  - destruct (proj2 (proj2 (trueSrc_without_origin "static/y.jpg"
                              (Some "production"))) "https://site" eq_refl)
      as [target [H _]].
    exists target. exact H.
Defined.

(** C8, counterexample. An empty path is resolved like any other: the call
    returns the bare proxy endpoint and throws nothing. *)
Lemma empty_path_is_resolved :
  resolveSrc "" None (Some "production") = Returns "//wsrv.nl?url=" /\
  resolveSrc "" None (Some "production") <> Throws InvalidReference.
Proof. split; [reflexivity | discriminate]. Qed.

(** C8, amended. Resolving the empty path never fails and returns a string:
    the proxy endpoint alone when no origin is given, the endpoint followed
    by the origin and ["/"] in production with a non-empty origin, and the
    empty string outside production with a non-empty origin. *)
Theorem resolveSrc_empty_path (origin : option string) (NODE_ENV : option string) :
  (exists url, resolveSrc "" origin NODE_ENV = Returns url) /\
  (origin = None -> resolveSrc "" origin NODE_ENV = Returns "//wsrv.nl?url=") /\
  (forall o, origin = Some o -> o <> "" -> NODE_ENV = Some "production" ->
     resolveSrc "" origin NODE_ENV = Returns ("//wsrv.nl?url=" ++ o ++ "/")) /\
  (forall o, origin = Some o -> o <> "" -> NODE_ENV <> Some "production" ->
     resolveSrc "" origin NODE_ENV = Returns "").
Proof.
  unfold resolveSrc. split; [eexists; reflexivity|]. split; [|split].
  - intros ->. reflexivity.
  - intros o -> Ho ->. f_equal. now rewrite (trueSrc_origin_production "" o Ho).
  - intros o -> Ho Hdev. f_equal.
    now apply trueSrc_origin_outside_production.
Qed.

Lemma resolveSrc_empty_path_witness :
  resolveSrc "" None (Some "development") = Returns "//wsrv.nl?url=" /\
  resolveSrc "" (Some "https://site") (Some "production")
    = Returns "//wsrv.nl?url=https://site/" /\
  resolveSrc "" (Some "https://site") (Some "development") = Returns "".
Proof.
  split; [|split].
  - apply (proj1 (proj2 (resolveSrc_empty_path None (Some "development")))).
    reflexivity.
  - apply (proj1 (proj2 (proj2 (resolveSrc_empty_path (Some "https://site")
                                   (Some "production"))))
             "https://site"); [reflexivity | discriminate | reflexivity].
  - apply (proj2 (proj2 (proj2 (resolveSrc_empty_path (Some "https://site")
                                   (Some "development"))))
             "https://site"); [reflexivity | discriminate | discriminate].
Defined.

(** ** Descriptor strings *)

Lemma occurrences_append (c : ascii) (s t : string) :
  occurrences c (s ++ t) = (occurrences c s + occurrences c t)%nat.
Proof. induction s as [|d s IH]; simpl; [reflexivity | rewrite IH; lia]. Qed.

Lemma digits_no_comma (d : Decimal.uint) :
  occurrences "," (NilEmpty.string_of_uint d) = 0%nat.
Proof. induction d; simpl; auto. Qed.

Lemma numToString_no_comma (n : Z) : occurrences "," (numToString n) = 0%nat.
Proof.
  unfold numToString, NilZero.string_of_int, NilZero.string_of_uint.
  destruct (Z.to_int n) as [d|d]; destruct d; simpl; auto using digits_no_comma.
Qed.

Lemma widthClause_no_comma (s : Size) : occurrences "," (widthClause s) = 0%nat.
Proof.
  unfold widthClause. rewrite !occurrences_append, !numToString_no_comma.
  reflexivity.
Qed.

Lemma join_map_nth {A : Type} (f : A -> string) (l : list A) :
  List.length (map f l) = List.length l /\
  forall i a, nth_error l i = Some a -> nth_error (map f l) i = Some (f a).
Proof.
  split; [apply length_map|]. intros i a H. now apply map_nth_error.
Qed.

Lemma getWidths_commas (sizes : list Size) :
  sizes <> [] -> S (occurrences "," (getWidths sizes)) = List.length sizes.
Proof.
  unfold getWidths, join.
  induction sizes as [|b [|b' rest] IH]; intros Hne; [congruence| |].
  - change (String.concat ", " (map widthClause [b])) with (widthClause b).
    now rewrite widthClause_no_comma.
  - assert (Hrest : b' :: rest <> []) by discriminate.
    specialize (IH Hrest).
    change (String.concat ", " (map widthClause (b :: b' :: rest)))
      with (widthClause b ++ ", " ++ String.concat ", " (map widthClause (b' :: rest))).
    rewrite !occurrences_append, widthClause_no_comma.
    change (occurrences "," ", ") with 1%nat.
    simpl List.length in *. lia.
Qed.

Lemma string_app_assoc (a b c : string) : (a ++ b) ++ c = a ++ (b ++ c).
Proof. induction a as [|x a IH]; simpl; [reflexivity | now rewrite IH]. Qed.

Lemma to_int_not_nil (n : Z) :
  Z.to_int n <> Decimal.Pos Decimal.Nil /\ Z.to_int n <> Decimal.Neg Decimal.Nil.
Proof.
  destruct n as [|p|p]; simpl; split; try discriminate;
    intros H; injection H as H; now apply Unsigned.to_uint_nonnil in H.
Qed.

Lemma readNumber_numToString (n : Z) : readNumber (numToString n) = Some n.
Proof.
  unfold readNumber, numToString.
  destruct (to_int_not_nil n) as [H1 H2].
  rewrite (NilZero.isi _ H1 H2). simpl. now rewrite DecimalZ.of_to.
Qed.

Lemma getWidths_first (b : Size) (rest : list Size) :
  getWidths (b :: rest)
  = "(max-width: " ++ numToString (width b) ++ "px) "
      ++ numToString (width b) ++ "px"
      ++ match rest with
         | [] => ""
         | _ :: _ => ", " ++ getWidths rest
         end.
Proof.
  unfold getWidths, join. destruct rest as [|b' rest]; simpl map;
    cbn [String.concat]; unfold widthClause.
  - reflexivity.
  - now rewrite !string_app_assoc.
Qed.

(** C6. For every non-empty catalog, the sizes string is the clauses of its
    breakpoints joined by [", "]: as many clauses as breakpoints, the i-th
    clause built from the i-th breakpoint (nothing dropped, merged or
    reordered) and naming its width twice; the string holds one comma less
    than there are breakpoints.  Written out: the string starts with the
    clause of the first breakpoint, [(max-width: {width}px) {width}px],
    followed, when more breakpoints remain, by [", "] and the sizes string of
    the rest; and the number printed reads back as the width. *)
Theorem getWidths_clauses (sizes : list Size) :
  sizes <> [] ->
  (exists clauses,
     getWidths sizes = join clauses ", " /\
     List.length clauses = List.length sizes /\
     (forall i b, nth_error sizes i = Some b ->
        nth_error clauses i =
          Some ("(max-width: " ++ numToString (width b) ++ "px) "
                  ++ numToString (width b) ++ "px")) /\
     S (occurrences "," (getWidths sizes)) = List.length sizes) /\
  (forall b rest, sizes = b :: rest ->
     getWidths sizes
     = "(max-width: " ++ numToString (width b) ++ "px) "
         ++ numToString (width b) ++ "px"
         ++ match rest with
            | [] => ""
            | _ :: _ => ", " ++ getWidths rest
            end) /\
  (forall b, In b sizes -> readNumber (numToString (width b)) = Some (width b)).
Proof.
  intros Hne. split; [|split].
  - exists (map widthClause sizes).
    destruct (join_map_nth widthClause sizes) as [Hlen Hnth].
    repeat split; auto using getWidths_commas.
  - intros b rest ->. apply getWidths_first.
  - intros b _. apply readNumber_numToString.
Qed.

Lemma getWidths_clauses_witness :
  getWidths [mkSize 768 1024; mkSize 320 568; mkSize 768 1024]
    = "(max-width: 768px) 768px, (max-width: 320px) 320px, (max-width: 768px) 768px" /\
  readNumber "768" = Some 768 /\
  S (occurrences ","
       (getWidths [mkSize 768 1024; mkSize 320 568; mkSize 768 1024])) = 3%nat.
Proof.
  destruct (getWidths_clauses [mkSize 768 1024; mkSize 320 568; mkSize 768 1024])
    as [(clauses & _ & _ & _ & Hcommas) [Hfirst Hread]]; [discriminate|].
  split; [|split].
  - rewrite (Hfirst (mkSize 768 1024) [mkSize 320 568; mkSize 768 1024] eq_refl).
    reflexivity.
  - apply (Hread (mkSize 768 1024)). now left.
  - exact Hcommas.
Defined.

(** C4. For every non-empty catalog, with [U] the resolved URL, the srcset
    string is the candidates of its breakpoints joined by [", "]: as many
    candidates as breakpoints, the i-th one being
    [U?w={width}&h={height} {width}w] for the i-th breakpoint. *)
Theorem createSrcSet_candidates (src : string) (sizes : list Size)
        (origin NODE_ENV : option string) :
  sizes <> [] ->
  let U := trueSrc src origin NODE_ENV in
  exists candidates,
    createSrcSet src sizes origin NODE_ENV = join candidates ", " /\
    List.length candidates = List.length sizes /\
    (forall i b, nth_error sizes i = Some b ->
       nth_error candidates i =
         Some (U ++ "?w=" ++ numToString (width b) ++ "&h="
                 ++ numToString (height b) ++ " " ++ numToString (width b) ++ "w")) /\
    (forall b rest, sizes = b :: rest -> rest <> [] ->
       createSrcSet src sizes origin NODE_ENV =
         candidate U b ++ ", " ++ createSrcSet src rest origin NODE_ENV).
Proof.
  intros Hne U. exists (map (candidate U) sizes).
  destruct (join_map_nth (candidate U) sizes) as [Hlen Hnth].
  repeat split; auto.
  intros b rest -> Hrest. unfold createSrcSet, join. fold U.
  destruct rest as [|b' rest]; [congruence | reflexivity].
Qed.

Lemma createSrcSet_candidates_witness :
  createSrcSet "/a.jpg" [mkSize 320 568; mkSize 768 1024]
               (Some "https://site") (Some "production")
  = "//wsrv.nl?url=https://site/a.jpg?w=320&h=568 320w"
      ++ ", " ++ "//wsrv.nl?url=https://site/a.jpg?w=768&h=1024 768w".
Proof.
  destruct (createSrcSet_candidates "/a.jpg" [mkSize 320 568; mkSize 768 1024]
              (Some "https://site") (Some "production"))
    as [cands (_ & _ & _ & Hjoin)]; [discriminate|].
  rewrite (Hjoin (mkSize 320 568) [mkSize 768 1024] eq_refl); [|discriminate].
  reflexivity.
Defined.

Lemma append_inv_head (p s t : string) : p ++ s = p ++ t -> s = t.
Proof. induction p as [|c p IH]; simpl; intros H; [exact H|]. apply IH. congruence. Qed.

(** C5. On the proxy-wrapped base [//wsrv.nl?url={target}] the code joins the
    size parameters with ["?"]: the candidate reads
    [//wsrv.nl?url={target}?w={width}&h={height} {width}w], and for no base
    does a candidate continue with ["&"] after the base. *)
Theorem candidate_size_separator :
  createSrcSet "https://x/y.jpg" [mkSize 320 320] None (Some "production")
    = "//wsrv.nl?url=https://x/y.jpg?w=320&h=320 320w" /\
  createSrcSet "https://x/y.jpg" [mkSize 320 320] None (Some "production")
    <> "//wsrv.nl?url=https://x/y.jpg&w=320&h=320 320w" /\
  forall base s tail, candidate base s <> base ++ "&" ++ tail.
Proof.
  split; [reflexivity|]. split; [discriminate|].
  intros base s tail H. unfold candidate in H.
  apply append_inv_head in H. discriminate.
Qed.

(** C7, counterexample. With an empty catalog the descriptor is built all
    the same, out of two empty strings; nothing is thrown. *)
Lemma empty_catalog_builds_empty_descriptor :
  buildDescriptor "a.jpg" [] None (Some "production")
    = Returns (mkDescriptor "" "") /\
  buildDescriptor "a.jpg" [] None (Some "production") <> Throws InvalidCatalog.
Proof. split; [reflexivity | discriminate]. Qed.

(** C7, amended. Building a descriptor never fails; from an empty catalog
    it produces the empty sizes string and the empty srcset string, whatever
    the path, origin and build mode. *)
Theorem buildDescriptor_empty_catalog (src : string) (origin NODE_ENV : option string) :
  buildDescriptor src [] origin NODE_ENV = Returns (mkDescriptor "" "") /\
  forall sizes, exists d, buildDescriptor src sizes origin NODE_ENV = Returns d.
Proof. split; [reflexivity|]. intros sizes. eexists. reflexivity. Qed.

(** ** The preload effect *)

Lemma find_none_filter {A : Type} (f : A -> bool) (l : list A) :
  find f l = None <-> List.length (filter f l) = 0%nat.
Proof.
  induction l as [|x l IH]; simpl; [tauto|].
  destruct (f x); simpl; [split; discriminate | exact IH].
Qed.

Lemma find_app_found {A : Type} (f : A -> bool) (l1 l2 : list A) (x : A) :
  find f l1 = Some x -> find f (l1 ++ l2)%list = Some x.
Proof.
  induction l1 as [|y l1 IH]; simpl; [discriminate|].
  destruct (f y); auto.
Qed.

Lemma find_app_last {A : Type} (f : A -> bool) (l : list A) (x : A) :
  find f (l ++ [x])%list
  = match find f l with
    | Some y => Some y
    | None => if f x then Some x else None
    end.
Proof.
  induction l as [|y l IH]; simpl; [reflexivity|].
  destruct (f y); auto.
Qed.

Lemma countMatches_app (conds : list (AttrName * string)) (h1 h2 : Head) :
  countMatches conds (h1 ++ h2)%list
  = (countMatches conds h1 + countMatches conds h2)%nat.
Proof. unfold countMatches. now rewrite filter_app, length_app. Qed.


Section EnsureLink.

Variable denotes : HeadChild -> bool.
Variable l : HTMLLinkElement.

Lemma ensureLink_grows (head : Head) :
  ensureLink denotes l head = head \/
  ensureLink denotes l head = (head ++ [LinkEl l])%list.
Proof. unfold ensureLink, appendChild. destruct (find denotes head); auto. Qed.

Lemma ensureLink_other_find (other : HeadChild -> bool) (head : Head) :
  other (LinkEl l) = false ->
  find other (ensureLink denotes l head) = find other head.
Proof.
  intros Hl. unfold ensureLink, appendChild. destruct (find denotes head); auto.
  rewrite find_app_last, Hl. now destruct (find other head).
Qed.

Lemma ensureLink_keeps (other : HeadChild -> bool) (head : Head) (c : HeadChild) :
  find other head = Some c -> find other (ensureLink denotes l head) = Some c.
Proof.
  intros H. unfold ensureLink, appendChild. destruct (find denotes head); auto.
  now apply find_app_found.
Qed.

Hypothesis l_selected : denotes (LinkEl l) = true.

Lemma ensureLink_found (head : Head) :
  exists c, find denotes (ensureLink denotes l head) = Some c.
Proof.
  unfold ensureLink, appendChild. destruct (find denotes head) as [c|] eqn:E.
  - eauto.
  - rewrite find_app_last, E, l_selected. eauto.
Qed.

Lemma ensureLink_idempotent (head : Head) :
  ensureLink denotes l (ensureLink denotes l head) = ensureLink denotes l head.
Proof.
  destruct (ensureLink_found head) as [c Hc].
  unfold ensureLink at 1. now rewrite Hc.
Qed.

End EnsureLink.


Lemma ensureLink_swap (da db : HeadChild -> bool) (la lb : HTMLLinkElement)
      (head : Head) :
  da (LinkEl lb) = false ->
  db (LinkEl la) = false ->
  Permutation (ensureLink db lb (ensureLink da la head))
              (ensureLink da la (ensureLink db lb head)).
Proof.
  intros Hab Hba.
  pose proof (ensureLink_other_find da la db head Hba) as Qb.
  pose proof (ensureLink_other_find db lb da head Hab) as Qa.
  change (ensureLink db lb (ensureLink da la head))
    with (match find db (ensureLink da la head) with
          | None => appendChild (ensureLink da la head) (LinkEl lb)
          | Some _ => ensureLink da la head
          end).
  change (ensureLink da la (ensureLink db lb head))
    with (match find da (ensureLink db lb head) with
          | None => appendChild (ensureLink db lb head) (LinkEl la)
          | Some _ => ensureLink db lb head
          end).
  rewrite Qa, Qb. unfold ensureLink, appendChild.
  destruct (find da head), (find db head); try apply Permutation_refl.
  rewrite <- !app_assoc. apply Permutation_app_head. apply perm_swap.
Qed.

(** *** The blocks, run *)

Lemma ensurePreload_run (engine : SelectorEngine) (sizeSet srcSet : string)
      (denotes : HeadChild -> bool) (head : Head) :
  engine (preloadSelector srcSet sizeSet) = Some denotes ->
  ensurePreload engine sizeSet srcSet head
  = (ensureLink denotes (newPreloadLink srcSet sizeSet) head, DomOk tt).
Proof.
  intros E. unfold ensurePreload, bind, querySelectorIn, querySelector, ensureLink.
  rewrite E. now destruct (find denotes head).
Qed.

Lemma ensurePreload_throws (engine : SelectorEngine) (sizeSet srcSet : string)
      (head : Head) :
  engine (preloadSelector srcSet sizeSet) = None ->
  ensurePreload engine sizeSet srcSet head = (head, DomSyntaxError).
Proof.
  intros E. unfold ensurePreload, bind, querySelectorIn, querySelector.
  now rewrite E.
Qed.

Lemma ensurePreconnect_run (engine : SelectorEngine) (denotes : HeadChild -> bool)
      (head : Head) :
  engine preconnectSelector = Some denotes ->
  ensurePreconnect engine head
  = (ensureLink denotes newPreconnectLink head, DomOk tt).
Proof.
  intros E. unfold ensurePreconnect, bind, querySelectorIn, querySelector, ensureLink.
  rewrite E. now destruct (find denotes head).
Qed.

Lemma ensurePreconnect_throws (engine : SelectorEngine) (head : Head) :
  engine preconnectSelector = None ->
  ensurePreconnect engine head = (head, DomSyntaxError).
Proof.
  intros E. unfold ensurePreconnect, bind, querySelectorIn, querySelector.
  now rewrite E.
Qed.

Lemma preload_link_matches (srcSet sizeSet srcSet' sizeSet' : string) :
  matchesLink [(A_as, "image"); (A_imageSrcset, srcSet'); (A_imageSizes, sizeSet')]
              (LinkEl (newPreloadLink srcSet sizeSet))
  = String.eqb srcSet srcSet' && String.eqb sizeSet sizeSet'.
Proof.
  simpl. unfold attrIs. simpl. now rewrite andb_true_r.
Qed.


(** *** Texts that a CSS string holds as they are *)

Lemma plain_cssString (s : string) :
  allChars plainChar s = true -> cssString s = Some s.
Proof.
  induction s as [|c s IH]; simpl; [reflexivity|].
  intros H. apply andb_true_iff in H. destruct H as [Hc Hs].
  assert (Hb : Ascii.eqb c "\" = false).
  { unfold plainChar in Hc. apply negb_true_iff in Hc.
    apply orb_false_iff in Hc. destruct Hc as [Hc _].
    apply orb_false_iff in Hc. destruct Hc as [Hc _].
    apply orb_false_iff in Hc. tauto. }
  now rewrite Hb, Hc, (IH Hs).
Qed.

Lemma allChars_app (p : ascii -> bool) (s t : string) :
  allChars p (s ++ t) = allChars p s && allChars p t.
Proof.
  induction s as [|c s IH]; simpl; [reflexivity|].
  now rewrite IH, andb_assoc.
Qed.

(** *** [templateEngine] obeys the contract *)

Lemma stripPrefix_app (p s : string) : stripPrefix p (p ++ s) = Some s.
Proof.
  induction p as [|a p IH]; simpl; [reflexivity|].
  now rewrite Ascii.eqb_refl.
Qed.

Lemma plainChar_not_quote (c : ascii) :
  plainChar c = true -> Ascii.eqb c dq = false.
Proof.
  unfold plainChar. intros H. apply negb_true_iff in H.
  apply orb_false_iff in H. destruct H as [H _].
  apply orb_false_iff in H. destruct H as [H _].
  apply orb_false_iff in H. tauto.
Qed.

Lemma readValue_cssString (n : nat) : forall (v held after : string),
  (String.length v <= n)%nat ->
  cssString v = Some held ->
  readValue (v ++ String dq after) = Some (held, after).
Proof.
  induction n as [|n IH]; intros v held after Hn Hv.
  - destruct v; [|simpl in Hn; lia]. simpl in Hv. injection Hv as <-.
    reflexivity.
  - destruct v as [|c v]; [simpl in Hv; injection Hv as <-; reflexivity|].
    simpl in Hv, Hn. cbn [append readValue].
    destruct (Ascii.eqb c "\") eqn:Eb.
    + destruct v as [|e v]; [discriminate|]. cbn [append].
      destruct (escapable e); [|discriminate].
      destruct (cssString v) as [held'|] eqn:Ev; [|discriminate].
      simpl in Hv. injection Hv as <-. simpl in Hn.
      rewrite (IH v held' after); [reflexivity | lia | exact Ev].
    + destruct (plainChar c) eqn:Ep; [|discriminate].
      destruct (cssString v) as [held'|] eqn:Ev; [|discriminate].
      simpl in Hv. injection Hv as <-.
      rewrite (plainChar_not_quote c Ep).
      rewrite (IH v held' after); [reflexivity | lia | exact Ev].
Qed.

Lemma quoted_app (v t : string) : quoted v ++ t = String dq (v ++ String dq t).
Proof. unfold quoted. cbn [append]. now rewrite string_app_assoc. Qed.

Lemma preloadSelector_shape (srcSet sizeSet : string) :
  preloadSelector srcSet sizeSet
  = ("link[as=" ++ quoted "image" ++ "][imageSrcset=" ++ String dq "")
      ++ srcSet ++ String dq
           (("][imageSizes=" ++ String dq "") ++ sizeSet ++ String dq "]").
Proof. unfold preloadSelector. rewrite !quoted_app. reflexivity. Qed.

Lemma templateEngine_contract : engineContract templateEngine.
Proof.
  split; [reflexivity|].
  intros srcSet sizeSet heldSrcSet heldSizes Hs Hz.
  unfold templateEngine.
  assert (Hne : String.eqb (preloadSelector srcSet sizeSet) preconnectSelector = false)
    by reflexivity.
  rewrite Hne, preloadSelector_shape, stripPrefix_app.
  rewrite (readValue_cssString _ srcSet heldSrcSet _ (Nat.le_refl _) Hs).
  rewrite stripPrefix_app.
  rewrite (readValue_cssString _ sizeSet heldSizes _ (Nat.le_refl _) Hz).
  reflexivity.
Qed.

(** C9. The lookup of the preload block does not find the link the block
    itself appended when a descriptor string holds a backslash escape: the
    selector text then denotes other values than the ones recorded on the
    link.  For every document that reads the selector as CSS prescribes and
    every (sizes, srcset) pair of which one string is held as something
    else than itself, two runs of the block on a head without a link of the
    held values both reach their end and leave two equal entries for the
    one pair. *)
Theorem ensurePreload_escaped_pair_duplicates
        (engine : SelectorEngine) (sizeSet srcSet heldSrcSet heldSizes : string)
        (head : Head) :
  engineContract engine ->
  cssString srcSet = Some heldSrcSet ->
  cssString sizeSet = Some heldSizes ->
  heldSrcSet <> srcSet \/ heldSizes <> sizeSet ->
  countMatches [(A_as, "image"); (A_imageSrcset, heldSrcSet);
                (A_imageSizes, heldSizes)] head = 0%nat ->
  let once := ensurePreload engine sizeSet srcSet head in
  let twice := ensurePreload engine sizeSet srcSet (fst once) in
  snd once = DomOk tt /\
  snd twice = DomOk tt /\
  fst twice = (head ++ [LinkEl (newPreloadLink srcSet sizeSet);
                        LinkEl (newPreloadLink srcSet sizeSet)])%list /\
  countMatches [(A_as, "image"); (A_imageSrcset, srcSet); (A_imageSizes, sizeSet)]
               (fst twice)
  = (2 + countMatches [(A_as, "image"); (A_imageSrcset, srcSet);
                       (A_imageSizes, sizeSet)] head)%nat.
Proof.
  intros [_ Hc] Hs Hz Hne H0 once twice. subst once twice.
  specialize (Hc _ _ _ _ Hs Hz).
  rewrite (ensurePreload_run _ _ _ _ head Hc). cbn [fst snd].
  rewrite (ensurePreload_run _ _ _ _ _ Hc). cbn [fst snd].
  set (held := matchesLink [(A_as, "image"); (A_imageSrcset, heldSrcSet);
                            (A_imageSizes, heldSizes)]) in *.
  assert (Hmiss : held (LinkEl (newPreloadLink srcSet sizeSet)) = false).
  { subst held. rewrite preload_link_matches. apply andb_false_iff.
    destruct Hne as [Hne|Hne]; [left | right]; apply String.eqb_neq; congruence. }
  assert (Hfind : find held head = None) by (now apply find_none_filter).
  assert (E1 : ensureLink held (newPreloadLink srcSet sizeSet) head
               = (head ++ [LinkEl (newPreloadLink srcSet sizeSet)])%list).
  { unfold ensureLink, appendChild. now rewrite Hfind. }
  assert (E2 : ensureLink held (newPreloadLink srcSet sizeSet)
                          (head ++ [LinkEl (newPreloadLink srcSet sizeSet)])%list
               = (head ++ [LinkEl (newPreloadLink srcSet sizeSet);
                           LinkEl (newPreloadLink srcSet sizeSet)])%list).
  { unfold ensureLink, appendChild.
    rewrite find_app_last, Hfind, Hmiss, <- app_assoc. reflexivity. }
  rewrite E1, E2. repeat split.
  rewrite countMatches_app. unfold countMatches at 2. cbn [filter].
  rewrite preload_link_matches, !String.eqb_refl. simpl. lia.
Qed.

Lemma ensurePreload_escaped_pair_duplicates_witness :
  let sizeSet := getWidths [mkSize 320 320] in
  let srcSet := createSrcSet "images\photo.jpg" [mkSize 320 320] None None in
  srcSet = "//wsrv.nl?url=images\photo.jpg?w=320&h=320 320w" /\
  cssString srcSet = Some "//wsrv.nl?url=imagesphoto.jpg?w=320&h=320 320w" /\
  fst (ensurePreload templateEngine sizeSet srcSet
         (fst (ensurePreload templateEngine sizeSet srcSet [])))
  = [LinkEl (newPreloadLink srcSet sizeSet); LinkEl (newPreloadLink srcSet sizeSet)].
Proof.
  split; [reflexivity|]. split; [reflexivity|].
  apply (ensurePreload_escaped_pair_duplicates templateEngine
           (getWidths [mkSize 320 320])
           (createSrcSet "images\photo.jpg" [mkSize 320 320] None None)
           "//wsrv.nl?url=imagesphoto.jpg?w=320&h=320 320w"
           "(max-width: 320px) 320px" []
           templateEngine_contract eq_refl eq_refl).
  - left. discriminate.
  - reflexivity.
Defined.


(** ** The examples of the design, run on the code *)

Example handleResize_800 :
  handleResize [mkSize 320 568; mkSize 768 1024; mkSize 1024 768] 800
  = Some (mkSize 768 1024).
Proof. reflexivity. Qed.

Example handleResize_too_narrow : handleResize __DEFAULT_SIZES__ 100 = None.
Proof. reflexivity. Qed.

Example handleResize_tie_takes_first :
  handleResize [mkSize 768 1; mkSize 320 2; mkSize 768 3] 800 = Some (mkSize 768 1).
Proof. reflexivity. Qed.

Example getWidths_two :
  getWidths [mkSize 320 568; mkSize 768 1024]
  = "(max-width: 320px) 320px, (max-width: 768px) 768px".
Proof. reflexivity. Qed.

Example createSrcSet_development_origin :
  createSrcSet "a.jpg" [mkSize 320 568] (Some "https://site") (Some "development")
  = "a.jpg?w=320&h=568 320w".
Proof. reflexivity. Qed.

Example isDomain_samples :
  map ImageTsx.isDomain
      ["https://x/y.jpg"; "WWW.x"; "cdn.example.com/y.jpg"; "/static/y.jpg"; "static/y.jpg"]
  = [true; true; true; false; false].
Proof. reflexivity. Qed.

(** * Further properties of the code *)

(** ** Breakpoint selection, continued *)

(** The result as a maximum: it is in the catalog, fits, and no fitting
    breakpoint is wider. *)
Lemma handleResize_max (sizes : list Size) (vw : Z) :
  match handleResize sizes vw with
  | Some b =>
      In b sizes /\ width b <= vw /\
      (forall x, In x sizes -> width x <= vw -> width x <= width b)
  | None => forall x, In x sizes -> vw < width x
  end.
Proof.
  pose proof (handleResize_widest vw sizes) as H. unfold widestSoFar in H.
  destruct (handleResize sizes vw) as [b|]; auto.
  destruct H as (before & after & -> & Hb & Hlt & Hle).
  split; [apply in_elt|]. split; auto.
  intros x Hx Hq. apply in_app_or in Hx. destruct Hx as [Hx|[->|Hx]].
  - specialize (Hlt _ Hx Hq). lia.
  - lia.
  - auto.
Qed.

(** X1. A wider viewport never selects a narrower breakpoint: if a
    breakpoint is selected at one width, one is selected at every larger
    width, and it is at least as wide. *)
Theorem handleResize_monotone (sizes : list Size) (vw1 vw2 : Z) (b1 : Size) :
  vw1 <= vw2 ->
  handleResize sizes vw1 = Some b1 ->
  exists b2, handleResize sizes vw2 = Some b2 /\ width b1 <= width b2.
Proof.
  intros Hle H1.
  pose proof (handleResize_max sizes vw1) as M1. rewrite H1 in M1.
  destruct M1 as (Hin & Hfit & _).
  pose proof (handleResize_max sizes vw2) as M2.
  destruct (handleResize sizes vw2) as [b2|].
  - exists b2. split; [reflexivity|].
    destruct M2 as (_ & _ & Hmax). apply Hmax; [exact Hin | lia].
  - specialize (M2 _ Hin). lia.
Qed.

Lemma handleResize_monotone_witness :
  exists b2,
    handleResize __DEFAULT_SIZES__ 1500 = Some b2 /\ width (mkSize 768 768) <= width b2.
Proof.
  apply (handleResize_monotone __DEFAULT_SIZES__ 800 1500 (mkSize 768 768)).
  - lia.
  - reflexivity.
Defined.

(** X2. The order of the catalog does not change the width that is
    selected: two catalogs that are permutations of each other select
    breakpoints of the same width, or none in both. *)
Theorem handleResize_width_permutation (c1 c2 : list Size) (vw : Z) :
  Permutation c1 c2 ->
  option_map width (handleResize c1 vw) = option_map width (handleResize c2 vw).
Proof.
  intros P.
  pose proof (handleResize_max c1 vw) as M1.
  pose proof (handleResize_max c2 vw) as M2.
  destruct (handleResize c1 vw) as [b1|], (handleResize c2 vw) as [b2|]; simpl; auto.
  - destruct M1 as (In1 & F1 & Max1), M2 as (In2 & F2 & Max2).
    assert (width b1 <= width b2)
      by (apply Max2; auto; eapply Permutation_in; eauto).
    assert (width b2 <= width b1)
      by (apply Max1; auto; eapply Permutation_in; [apply Permutation_sym|]; eauto).
    f_equal. lia.
  - destruct M1 as (In1 & F1 & _).
    specialize (M2 b1 (Permutation_in _ P In1)). lia.
  - destruct M2 as (In2 & F2 & _).
    specialize (M1 b2 (Permutation_in _ (Permutation_sym P) In2)). lia.
Qed.

Lemma handleResize_width_permutation_witness :
  option_map width
    (handleResize [mkSize 768 1024; mkSize 320 568; mkSize 1920 1080] 800)
  = option_map width
      (handleResize [mkSize 320 568; mkSize 768 1024; mkSize 1920 1080] 800).
Proof.
  apply handleResize_width_permutation. apply perm_swap.
Defined.

Lemma split_compare {A : Type} (l1 l2 l1' l2' : list A) (b b' : A) :
  (l1 ++ b :: l2 = l1' ++ b' :: l2')%list ->
  (l1 = l1' /\ b = b' /\ l2 = l2') \/
  (In b l1' /\ In b' l2) \/
  (In b' l1 /\ In b l2').
Proof.
  revert l1'. induction l1 as [|x l1 IH]; intros [|y l1'] H; simpl in H.
  - injection H as -> ->. auto.
  - injection H as -> ->. right. left. split; [now left | apply in_elt].
  - injection H as -> <-. right. right. split; [now left | apply in_elt].
  - injection H as -> H. destruct (IH _ H) as [(-> & -> & ->)|[[? ?]|[? ?]]].
    + auto.
    + right. left. split; [now right | assumption].
    + right. right. split; [now right | assumption].
Qed.

(** X3. Selection is stable at the selected width: when the viewport is
    exactly as wide as the breakpoint selected for some viewport, that very
    breakpoint is selected again. *)
Theorem handleResize_at_selected_width (sizes : list Size) (vw : Z) (b : Size) :
  handleResize sizes vw = Some b ->
  handleResize sizes (width b) = Some b.
Proof.
  intros H.
  pose proof (handleResize_widest vw sizes) as W. rewrite H in W.
  destruct W as (l1 & l2 & E & Hb & Hlt & Hle).
  pose proof (handleResize_widest (width b) sizes) as W'.
  destruct (handleResize sizes (width b)) as [b'|]; simpl in W'.
  - destruct W' as (l1' & l2' & E' & Hb' & Hlt' & Hle').
    rewrite E in E'.
    destruct (split_compare _ _ _ _ _ _ E') as [(_ & -> & _)|[[I1 I2]|[I1 I2]]].
    + reflexivity.
    + specialize (Hlt' _ I1 (Z.le_refl _)). lia.
    + assert (width b' < width b) by (apply Hlt; auto; lia).
      specialize (Hle' _ I2 (Z.le_refl _)). lia.
  - subst sizes. specialize (W' b (in_elt b l1 l2)). lia.
Qed.

Lemma handleResize_at_selected_width_witness :
  handleResize [mkSize 768 1; mkSize 320 2; mkSize 768 3] (width (mkSize 768 1))
  = Some (mkSize 768 1).
Proof.
  apply (handleResize_at_selected_width [mkSize 768 1; mkSize 320 2; mkSize 768 3] 800).
  reflexivity.
Defined.

Lemma handleResize_step_assoc (a : option Size) (x y : Size) :
  handleResize_step (handleResize_step a x) y
  = match handleResize_step (Some x) y with
    | Some w => handleResize_step a w
    | None => a
    end.
Proof.
  destruct a as [c|]; simpl.
  - destruct (width c <? width x) eqn:E1, (width x <? width y) eqn:E2; simpl;
      rewrite ?E1, ?E2; try reflexivity.
    + apply Z.ltb_lt in E1, E2.
      assert (E3 : (width c <? width y) = true) by (apply Z.ltb_lt; lia).
      now rewrite E3.
    + apply Z.ltb_ge in E1, E2.
      assert (E3 : (width c <? width y) = false) by (apply Z.ltb_ge; lia).
      now rewrite E3.
  - destruct (width x <? width y); reflexivity.
Qed.

Lemma handleResize_loop_from (l : list Size) : forall a : option Size,
  fold_left handleResize_step l a
  = match fold_left handleResize_step l None with
    | Some y => handleResize_step a y
    | None => a
    end.
Proof.
  induction l as [|x l IH]; intros a; simpl; [reflexivity|].
  rewrite (IH (handleResize_step a x)), (IH (Some x)).
  destruct (fold_left handleResize_step l None) as [y|]; [|reflexivity].
  apply handleResize_step_assoc.
Qed.

(** X4. Selection over two catalogs put one after the other is the
    selection of the first compared with the selection of the second: the
    second one's result replaces the first one's only when there is none or
    when it is strictly wider. *)
Theorem handleResize_app (l1 l2 : list Size) (vw : Z) :
  handleResize (l1 ++ l2) vw
  = match handleResize l2 vw with
    | Some y => handleResize_step (handleResize l1 vw) y
    | None => handleResize l1 vw
    end.
Proof.
  unfold handleResize. rewrite filter_app, fold_left_app.
  apply handleResize_loop_from.
Qed.

Lemma filter_ascending (f : Size -> bool) (l : list Size) :
  StronglySorted (fun a b => width a < width b) l ->
  StronglySorted (fun a b => width a < width b) (filter f l).
Proof.
  induction 1 as [|a l Hs IH Hall]; simpl; [constructor|].
  destruct (f a); [|exact IH].
  constructor; [exact IH|].
  apply Forall_forall. intros x Hx. apply filter_In in Hx.
  rewrite Forall_forall in Hall. now apply Hall.
Qed.

Lemma last_cons_default {A : Type} (x : A) (l : list A) (d d' : A) :
  last (x :: l) d = last (x :: l) d'.
Proof.
  revert x. induction l as [|y l IH]; intros x; [reflexivity|].
  change (last (y :: l) d = last (y :: l) d'). apply IH.
Qed.

Lemma handleResize_loop_ascending (l : list Size) : forall a : option Size,
  StronglySorted (fun a b => width a < width b) l ->
  (forall c, a = Some c -> Forall (fun x => width c < width x) l) ->
  fold_left handleResize_step l a = last (map Some l) a.
Proof.
  induction l as [|x l IH]; intros a Hs Ha; [reflexivity|].
  apply StronglySorted_inv in Hs. destruct Hs as [Hs Hx].
  assert (Hstep : handleResize_step a x = Some x).
  { destruct a as [c|]; simpl; [|reflexivity].
    specialize (Ha c eq_refl). inversion Ha as [|? ? Hc _]; subst.
    apply Z.ltb_lt in Hc. now rewrite Hc. }
  cbn [fold_left]. rewrite Hstep, IH; auto.
  - destruct l as [|y l]; [reflexivity|].
    change (last (Some y :: map Some l) (Some x) = last (Some y :: map Some l) a).
    apply last_cons_default.
  - intros c Hc. injection Hc as <-. exact Hx.
Qed.

(** X5. On a catalog whose widths strictly ascend, as in the default
    table, the selected breakpoint is the last one in the catalog that fits
    the viewport. *)
Theorem handleResize_ascending (sizes : list Size) (vw : Z) :
  StronglySorted (fun a b => width a < width b) sizes ->
  handleResize sizes vw
  = last (map Some (filter (fun s => width s <=? vw) sizes)) None.
Proof.
  intros Hs. unfold handleResize.
  apply handleResize_loop_ascending.
  - now apply filter_ascending.
  - discriminate.
Qed.

Lemma default_sizes_ascending :
  StronglySorted (fun a b => width a < width b) __DEFAULT_SIZES__.
Proof.
  unfold __DEFAULT_SIZES__.
  repeat (constructor; [|repeat (constructor; [simpl; lia|]); constructor]).
  constructor.
Qed.

Lemma handleResize_ascending_witness :
  handleResize __DEFAULT_SIZES__ 1500
  = last (map Some (filter (fun s => width s <=? 1500) __DEFAULT_SIZES__)) None.
Proof.
  apply (handleResize_ascending __DEFAULT_SIZES__ 1500).
  exact default_sizes_ascending.
Defined.

(** ** Reading a descriptor string back *)

Lemma digits_numChars (d : Decimal.uint) :
  allChars isNumChar (NilEmpty.string_of_uint d) = true.
Proof. induction d; simpl; auto. Qed.

Lemma numToString_numChars (n : Z) : allChars isNumChar (numToString n) = true.
Proof.
  unfold numToString, NilZero.string_of_int, NilZero.string_of_uint.
  destruct (Z.to_int n) as [d|d]; destruct d; simpl; auto using digits_numChars.
Qed.

Lemma numToString_inj (a b : Z) : numToString a = numToString b -> a = b.
Proof.
  unfold numToString. intros H. apply DecimalZ.to_int_inj.
  destruct (to_int_not_nil a) as [Ha1 Ha2], (to_int_not_nil b) as [Hb1 Hb2].
  pose proof (NilZero.isi _ Ha1 Ha2) as Ia.
  pose proof (NilZero.isi _ Hb1 Hb2) as Ib.
  rewrite H in Ia. congruence.
Qed.

(** A printed number followed by a character no number contains can be cut
    off in one way only. *)
Lemma numeric_prefix_unique (s1 : string) : forall (s2 t1 t2 : string) (c1 c2 : ascii),
  allChars isNumChar s1 = true -> allChars isNumChar s2 = true ->
  isNumChar c1 = false -> isNumChar c2 = false ->
  s1 ++ String c1 t1 = s2 ++ String c2 t2 ->
  s1 = s2 /\ String c1 t1 = String c2 t2.
Proof.
  induction s1 as [|x s1 IH]; intros [|y s2] t1 t2 c1 c2 H1 H2 N1 N2 E;
    simpl in *.
  - auto.
  - injection E as -> _. apply andb_true_iff in H2. destruct H2. congruence.
  - injection E as -> _. apply andb_true_iff in H1. destruct H1. congruence.
  - injection E as -> E.
    apply andb_true_iff in H1, H2. destruct H1 as [_ H1], H2 as [_ H2].
    destruct (IH _ _ _ _ _ H1 H2 N1 N2 E) as [-> ?]. auto.
Qed.

Lemma number_then_text (a b : Z) (c : ascii) (t u v : string) :
  isNumChar c = false ->
  numToString a ++ String c t ++ u = numToString b ++ String c t ++ v ->
  a = b /\ u = v.
Proof.
  intros Hc E. simpl in E.
  destruct (numeric_prefix_unique _ _ _ _ _ _
              (numToString_numChars a) (numToString_numChars b) Hc Hc E)
    as [Hn Ht].
  split; [now apply numToString_inj|].
  injection Ht as Ht. now apply append_inv_head in Ht.
Qed.

Lemma widthClause_then (b : Size) (t : string) :
  widthClause b ++ t
  = "(max-width: " ++ numToString (width b) ++ "px) "
      ++ numToString (width b) ++ "px" ++ t.
Proof. unfold widthClause. now rewrite !string_app_assoc. Qed.

Lemma widthClause_cut (b1 b2 : Size) (t1 t2 : string) :
  widthClause b1 ++ t1 = widthClause b2 ++ t2 -> width b1 = width b2 /\ t1 = t2.
Proof.
  rewrite !widthClause_then. intros E. apply append_inv_head in E.
  destruct (number_then_text _ _ "p" "x) " _ _ eq_refl E) as [Hw E'].
  split; [exact Hw|]. rewrite Hw in E'.
  apply append_inv_head in E'. now apply append_inv_head in E'.
Qed.

Lemma getWidths_cons (b : Size) (rest : list Size) :
  getWidths (b :: rest)
  = widthClause b ++ match rest with
                     | [] => ""
                     | _ :: _ => ", " ++ getWidths rest
                     end.
Proof.
  unfold getWidths, join. destruct rest; simpl map; cbn [String.concat].
  - clear. induction (widthClause b); simpl; congruence.
  - reflexivity.
Qed.

(** X6. The sizes string determines the widths of the catalog: two
    catalogs with the same sizes string have the same sequence of widths, so
    catalogs that differ in a width or in length never share a sizes
    string. *)
Theorem getWidths_inj (c1 : list Size) : forall c2 : list Size,
  getWidths c1 = getWidths c2 -> map width c1 = map width c2.
Proof.
  induction c1 as [|b1 r1 IH]; intros [|b2 r2] E.
  - reflexivity.
  - rewrite getWidths_cons, widthClause_then in E. discriminate.
  - rewrite getWidths_cons, widthClause_then in E. discriminate.
  - rewrite !getWidths_cons in E. apply widthClause_cut in E.
    destruct E as [Hw Et]. simpl. f_equal; [exact Hw|].
    destruct r1 as [|x r1], r2 as [|y r2]; try discriminate; [reflexivity|].
    apply IH. now apply append_inv_head in Et.
Qed.

Lemma getWidths_inj_witness :
  map width [mkSize 320 568; mkSize 768 1024] = map width [mkSize 320 1; mkSize 768 2].
Proof.
  apply (getWidths_inj [mkSize 320 568; mkSize 768 1024] [mkSize 320 1; mkSize 768 2]).
  reflexivity.
Defined.

Lemma candidate_then (base : string) (s : Size) (t : string) :
  candidate base s ++ t
  = base ++ "?w=" ++ numToString (width s) ++ "&h=" ++ numToString (height s)
         ++ " " ++ numToString (width s) ++ "w" ++ t.
Proof. unfold candidate. now rewrite !string_app_assoc. Qed.

Lemma candidate_cut (base : string) (s1 s2 : Size) (t1 t2 : string) :
  candidate base s1 ++ t1 = candidate base s2 ++ t2 -> s1 = s2 /\ t1 = t2.
Proof.
  rewrite !candidate_then. intros E.
  apply append_inv_head in E. apply (append_inv_head "?w=") in E.
  destruct (number_then_text _ _ "&" "h=" _ _ eq_refl E) as [Hw E1].
  destruct (number_then_text _ _ " " "" _ _ eq_refl E1) as [Hh E2].
  rewrite Hw in E2. apply append_inv_head in E2. apply (append_inv_head "w") in E2.
  split; [|exact E2].
  destruct s1, s2; simpl in *; congruence.
Qed.

Lemma append_not_empty (a : string) (c : ascii) (t : string) :
  a ++ String c t <> "".
Proof. destruct a; discriminate. Qed.

Lemma join_candidates_cons (base : string) (b : Size) (rest : list Size) :
  join (map (candidate base) (b :: rest)) ", "
  = candidate base b ++ match rest with
                        | [] => ""
                        | _ :: _ => ", " ++ join (map (candidate base) rest) ", "
                        end.
Proof.
  unfold join. destruct rest; simpl map; cbn [String.concat].
  - clear. induction (candidate base b); simpl; congruence.
  - reflexivity.
Qed.

Lemma join_candidates_inj (base : string) (c1 : list Size) : forall c2 : list Size,
  join (map (candidate base) c1) ", " = join (map (candidate base) c2) ", " ->
  c1 = c2.
Proof.
  induction c1 as [|b1 r1 IH]; intros [|b2 r2] E.
  - reflexivity.
  - rewrite join_candidates_cons, candidate_then in E.
    symmetry in E. now apply append_not_empty in E.
  - rewrite join_candidates_cons, candidate_then in E.
    now apply append_not_empty in E.
  - rewrite !join_candidates_cons in E. apply candidate_cut in E.
    destruct E as [-> Et]. f_equal.
    destruct r1 as [|x r1], r2 as [|y r2]; try discriminate; [reflexivity|].
    apply IH. now apply append_inv_head in Et.
Qed.

(** X7. For one image (same path, origin and build mode) the srcset string
    determines the catalog: two catalogs with the same srcset string are the
    same list of breakpoints, widths and heights alike. *)
Theorem createSrcSet_inj (src : string) (origin NODE_ENV : option string)
        (c1 c2 : list Size) :
  createSrcSet src c1 origin NODE_ENV = createSrcSet src c2 origin NODE_ENV ->
  c1 = c2.
Proof. unfold createSrcSet. apply join_candidates_inj. Qed.

Lemma createSrcSet_inj_witness :
  [mkSize 320 568; mkSize 768 1024] = [mkSize 320 568; mkSize 768 1024].
Proof.
  apply (createSrcSet_inj "/a.jpg" (Some "https://site") (Some "production")).
  reflexivity.
Defined.

(** ** URL resolution, continued *)

(** X8. Resolution never rewrites the path: the resolved URL is the path
    itself or the path behind a prefix that starts with the proxy endpoint,
    and that prefix is the endpoint alone, the endpoint and the origin, or
    the endpoint, the origin and one ["/"]. *)
Theorem trueSrc_keeps_path (src : string) (origin NODE_ENV : option string) :
  exists pre,
    trueSrc src origin NODE_ENV = pre ++ src /\
    (pre = "" \/
     pre = "//wsrv.nl?url=" \/
     exists o, origin = Some o /\
               (pre = "//wsrv.nl?url=" ++ o \/ pre = "//wsrv.nl?url=" ++ o ++ "/")).
Proof.
  unfold trueSrc. destruct (notOrigin origin) eqn:No.
  - exists "//wsrv.nl?url=". auto.
  - destruct origin as [o|]; [|discriminate]. simpl originText.
    destruct (isProduction NODE_ENV).
    + destruct (startsWithSlash src).
      * exists ("//wsrv.nl?url=" ++ o). split.
        -- now rewrite string_app_assoc.
        -- right. right. exists o. auto.
      * exists ("//wsrv.nl?url=" ++ o ++ "/"). split.
        -- now rewrite !string_app_assoc.
        -- right. right. exists o. auto.
    + exists "". auto.
Qed.

(** X9. With an origin, in production, a leading ["/"] on the path makes no
    difference: [/x] and [x] give the same srcset, for every [x] that does
    not itself start with ["/"]. *)
Theorem createSrcSet_leading_slash (rest o : string) (sizes : list Size) :
  o <> "" ->
  startsWithSlash rest = false ->
  createSrcSet (String "/" rest) sizes (Some o) (Some "production")
  = createSrcSet rest sizes (Some o) (Some "production").
Proof.
  intros Ho Hr. unfold createSrcSet.
  assert (Hs : startsWithSlash (String "/" rest) = true)
    by (apply startsWithSlash_true; eauto).
  rewrite !(trueSrc_origin_production _ o Ho), Hr, Hs.
  reflexivity.
Qed.

Lemma createSrcSet_leading_slash_witness :
  createSrcSet "/a.jpg" __DEFAULT_SIZES__ (Some "https://site") (Some "production")
  = createSrcSet "a.jpg" __DEFAULT_SIZES__ (Some "https://site") (Some "production").
Proof.
  apply (createSrcSet_leading_slash "a.jpg" "https://site" __DEFAULT_SIZES__).
  - discriminate.
  - reflexivity.
Defined.

(** ** [isDomain] and the patterns it tests *)

Lemma nullable_Matches (r : ImageTsx.regex) :
  ImageTsx.nullable r = true -> Matches r "".
Proof.
  induction r; simpl; intros H; try discriminate.
  - constructor.
  - apply orb_true_iff in H. destruct H; [apply MAltL | apply MAltR]; auto.
  - apply andb_true_iff in H. destruct H.
    change "" with ("" ++ ""). constructor; auto.
  - constructor.
Qed.

Lemma append_empty (u v : string) : u ++ v = "" -> u = "" /\ v = "".
Proof. destruct u; simpl; [auto | discriminate]. Qed.

Lemma Matches_nullable (r : ImageTsx.regex) (s : string) :
  Matches r s -> s = "" -> ImageTsx.nullable r = true.
Proof.
  induction 1; intros E; simpl; try discriminate; auto.
  - rewrite IHMatches; auto.
  - rewrite IHMatches; auto using orb_true_r.
  - apply append_empty in E. destruct E. rewrite IHMatches1, IHMatches2; auto.
Qed.

Lemma MCat_cons (r s : ImageTsx.regex) (c : ascii) (u v : string) :
  Matches r (String c u) -> Matches s v ->
  Matches (ImageTsx.Cat r s) (String c (u ++ v)).
Proof. intros Hr Hs. exact (MCat r s (String c u) v Hr Hs). Qed.

Lemma MStarS_cons (r : ImageTsx.regex) (c : ascii) (u v : string) :
  Matches r (String c u) -> Matches (ImageTsx.Star r) v ->
  Matches (ImageTsx.Star r) (String c (u ++ v)).
Proof. intros Hr Hs. exact (MStarS r (String c u) v Hr Hs). Qed.

Lemma deriv_sound (r : ImageTsx.regex) : forall (c : ascii) (s : string),
  Matches (ImageTsx.deriv c r) s -> Matches r (String c s).
Proof.
  induction r as [| |a|lo hi|r1 IH1 r2 IH2|r1 IH1 r2 IH2|r IH];
    intros c s H; simpl in H.
  - inversion H.
  - inversion H.
  - destruct (ImageTsx.litMatches a c) eqn:E; inversion H; subst.
    now constructor.
  - destruct (ImageTsx.rangeMatches lo hi c) eqn:E; inversion H; subst.
    now constructor.
  - inversion H; subst; [apply MAltL | apply MAltR]; auto.
  - destruct (ImageTsx.nullable r1) eqn:N.
    + inversion H as [| | | ? ? ? H1 | ? ? ? H1 | | |]; subst.
      * inversion H1; subst. apply MCat_cons; auto.
      * change (String c s) with ("" ++ String c s).
        constructor; auto using nullable_Matches.
    + inversion H; subst. apply MCat_cons; auto.
  - inversion H; subst. apply MStarS_cons; auto.
Qed.

Lemma deriv_complete (r : ImageTsx.regex) (t : string) :
  Matches r t ->
  forall (c : ascii) (s : string), t = String c s -> Matches (ImageTsx.deriv c r) s.
Proof.
  induction 1; intros c0 s0 E; simpl.
  - discriminate.
  - injection E as -> <-. rewrite H. constructor.
  - injection E as -> <-. rewrite H. constructor.
  - apply MAltL. eauto.
  - apply MAltR. eauto.
  - destruct u as [|x u]; simpl in E.
    + rewrite (Matches_nullable _ _ H eq_refl). apply MAltR. eauto.
    + injection E as -> <-.
      destruct (ImageTsx.nullable r); [apply MAltL|]; constructor; eauto.
  - discriminate.
  - destruct u as [|x u]; simpl in E.
    + apply (IHMatches2 _ _ E).
    + injection E as -> <-. constructor; eauto.
Qed.

Lemma test_unfold (r : ImageTsx.regex) (s : string) :
  ImageTsx.test r s
  = ImageTsx.nullable r ||
    match s with
    | EmptyString => false
    | String c s' => ImageTsx.test (ImageTsx.deriv c r) s'
    end.
Proof. destruct s; reflexivity. Qed.

Lemma test_sound (s : string) : forall r : ImageTsx.regex,
  ImageTsx.test r s = true -> exists p q, s = p ++ q /\ Matches r p.
Proof.
  induction s as [|c s IH]; intros r H; rewrite test_unfold in H;
    apply orb_true_iff in H; destruct H as [H|H]; try discriminate.
  - exists "", "". auto using nullable_Matches.
  - exists "", (String c s). auto using nullable_Matches.
  - destruct (IH _ H) as (p & q & -> & Hm).
    exists (String c p), q. split; [reflexivity|]. now apply deriv_sound.
Qed.

Lemma test_complete (p : string) : forall (r : ImageTsx.regex) (q : string),
  Matches r p -> ImageTsx.test r (p ++ q) = true.
Proof.
  induction p as [|c p IH]; intros r q H; rewrite test_unfold.
  - now rewrite (Matches_nullable _ _ H eq_refl).
  - simpl. rewrite (IH (ImageTsx.deriv c r) q); [apply orb_true_r|].
    now apply (deriv_complete r (String c p)).
Qed.

(** X10. [isDomain] answers what its two patterns mean: it holds exactly
    when some prefix of the path matches the scheme-or-www pattern or the
    host pattern, read as regular expressions without regard to case. *)
Theorem isDomain_meaning (path : string) :
  ImageTsx.isDomain path = true <->
  exists p q, path = p ++ q /\
              (Matches ImageTsx.schemeOrWww p \/ Matches ImageTsx.hostLike p).
Proof.
  unfold ImageTsx.isDomain. rewrite orb_true_iff. split.
  - intros [H|H]; apply test_sound in H; destruct H as (p & q & -> & Hm); eauto.
  - intros (p & q & -> & [Hm|Hm]); [left | right]; now apply test_complete.
Qed.

(** X11. A path that is a domain stays one whatever is appended to it. *)
Theorem isDomain_extends (path more : string) :
  ImageTsx.isDomain path = true -> ImageTsx.isDomain (path ++ more) = true.
Proof.
  unfold ImageTsx.isDomain. rewrite !orb_true_iff.
  intros [H|H]; apply test_sound in H; destruct H as (p & q & -> & Hm);
    rewrite string_app_assoc; [left | right]; now apply test_complete.
Qed.

Lemma isDomain_extends_witness :
  ImageTsx.isDomain ("cdn.example.com" ++ "/photos/1.jpg") = true.
Proof. apply (isDomain_extends "cdn.example.com" "/photos/1.jpg"). reflexivity. Defined.

Lemma Matches_canStart (r : ImageTsx.regex) (t : string) :
  Matches r t ->
  forall (c : ascii) (s : string), t = String c s -> canStart r c = true.
Proof.
  induction 1; intros c0 s0 E; simpl; try discriminate.
  - now injection E as -> _.
  - now injection E as -> _.
  - now rewrite (IHMatches _ _ E).
  - rewrite (IHMatches _ _ E). apply orb_true_r.
  - destruct u as [|x u]; simpl in E.
    + rewrite (Matches_nullable _ _ H eq_refl), (IHMatches2 _ _ E).
      apply orb_true_r.
    + injection E as -> _. now rewrite (IHMatches1 _ _ eq_refl).
  - destruct u as [|x u]; simpl in E.
    + apply (IHMatches2 _ _ E).
    + injection E as -> _. apply (IHMatches1 _ _ eq_refl).
Qed.

Lemma isDomain_canStart (c : ascii) :
  canStart ImageTsx.schemeOrWww c || canStart ImageTsx.hostLike c = true ->
  isAlnum c = true.
Proof.
  destruct c as [[|] [|] [|] [|] [|] [|] [|] [|]]; vm_compute; congruence.
Qed.

Lemma isDomain_first_char (path : string) :
  ImageTsx.isDomain path = true ->
  exists c rest, path = String c rest /\ isAlnum c = true.
Proof.
  unfold ImageTsx.isDomain. rewrite orb_true_iff.
  intros [H|H]; apply test_sound in H; destruct H as (p & q & -> & Hm);
    (destruct p as [|c p];
     [apply Matches_nullable in Hm; [discriminate | reflexivity]|]);
    exists c, (p ++ q); (split; [reflexivity|]);
    apply isDomain_canStart;
    rewrite (Matches_canStart _ _ Hm c p eq_refl); auto using orb_true_r.
Qed.

(** X12. Only a path that begins with an ASCII letter or digit can be a
    domain: the empty path and every path that begins with any other
    character (["/"], ["."], ["~"], ...) is not one. *)
Theorem isDomain_begins_alnum (path : string) :
  ImageTsx.isDomain path = true ->
  exists c rest, path = String c rest /\ isAlnum c = true.
Proof. apply isDomain_first_char. Qed.

Lemma isDomain_begins_alnum_witness :
  exists c rest, "cdn.example.com/a.jpg" = String c rest /\ isAlnum c = true.
Proof. apply (isDomain_begins_alnum "cdn.example.com/a.jpg"). reflexivity. Defined.

(** X13. In [src/Image.tsx], in production, a path that starts with ["/"]
    is always qualified with [window.location.origin], with no second
    ["/"] put in: the result is the endpoint, the origin and the path. *)
Theorem ImageTsx_root_relative (rest loc : string) :
  ImageTsx.trueSrc (String "/" rest) loc (Some "production")
  = "//wsrv.nl?url=" ++ loc ++ String "/" rest.
Proof.
  unfold ImageTsx.trueSrc.
  assert (Hd : ImageTsx.isDomain (String "/" rest) = false).
  { destruct (ImageTsx.isDomain (String "/" rest)) eqn:E; [|reflexivity].
    apply isDomain_first_char in E. destruct E as (c & r & E & Hc).
    injection E as <- _. discriminate. }
  assert (Hs : startsWithSlash (String "/" rest) = true)
    by (apply startsWithSlash_true; eauto).
  rewrite Hd, Hs. reflexivity.
Qed.

(** X14. The revisions agree on paths that are not domains: there
    [src/Image.tsx] resolves as the revision with the [origin] prop does
    when the origin given is [window.location.origin], in every build
    mode. *)
Theorem ImageTsx_agrees_with_origin (src loc : string) (NODE_ENV : option string) :
  loc <> "" ->
  ImageTsx.isDomain src = false ->
  ImageTsx.trueSrc src loc NODE_ENV = trueSrc src (Some loc) NODE_ENV.
Proof.
  intros Hl Hd. unfold ImageTsx.trueSrc, trueSrc.
  rewrite Hd, (notOrigin_given loc Hl). simpl.
  destruct (isProduction NODE_ENV), (startsWithSlash src); reflexivity.
Qed.

Lemma ImageTsx_agrees_with_origin_witness :
  ImageTsx.trueSrc "static/a.jpg" "https://site" (Some "production")
  = trueSrc "static/a.jpg" (Some "https://site") (Some "production").
Proof.
  apply (ImageTsx_agrees_with_origin "static/a.jpg" "https://site" (Some "production")).
  - discriminate.
  - reflexivity.
Defined.

Lemma sameIgnoringCase_Str (s : string) : forall p : string,
  sameIgnoringCase s p = true -> Matches (ImageTsx.Str s) p.
Proof.
  induction s as [|a s IH]; intros [|c p] H; simpl in *; try discriminate.
  - constructor.
  - apply andb_true_iff in H. destruct H as [Hc Hs].
    change (String c p) with (String c "" ++ p).
    constructor; [now constructor | auto].
Qed.

Lemma sameIgnoringCase_app (s1 : string) : forall s2 p : string,
  sameIgnoringCase (s1 ++ s2) p = true ->
  exists p1 p2, p = p1 ++ p2 /\
                sameIgnoringCase s1 p1 = true /\ sameIgnoringCase s2 p2 = true.
Proof.
  induction s1 as [|a s1 IH]; intros s2 p H; simpl in H.
  - exists "", p. auto.
  - destruct p as [|c p]; [discriminate|].
    apply andb_true_iff in H. destruct H as [Hc H].
    destruct (IH _ _ H) as (p1 & p2 & -> & H1 & H2).
    exists (String c p1), p2. simpl. rewrite Hc, H1. auto.
Qed.

Lemma scheme_Matches (p : string) :
  sameIgnoringCase "http://" p || sameIgnoringCase "https://" p
    || sameIgnoringCase "www." p = true ->
  Matches ImageTsx.schemeOrWww p.
Proof.
  intros H. apply orb_true_iff in H. destruct H as [H|H];
    [apply orb_true_iff in H; destruct H as [H|H]|].
  - apply (sameIgnoringCase_app "http" "://") in H.
    destruct H as (p1 & p2 & -> & H1 & H2).
    apply MAltL. constructor; [now apply sameIgnoringCase_Str|].
    change p2 with ("" ++ p2). constructor.
    + apply MAltR. constructor.
    + now apply sameIgnoringCase_Str.
  - apply (sameIgnoringCase_app "http" "s://") in H.
    destruct H as (p1 & p2 & -> & H1 & H2).
    apply (sameIgnoringCase_app "s" "://") in H2.
    destruct H2 as (p3 & p4 & -> & H3 & H4).
    apply MAltL. constructor; [now apply sameIgnoringCase_Str|].
    constructor.
    + apply MAltL. destruct p3 as [|c [|d p3]]; simpl in H3; try discriminate.
      * constructor. now rewrite andb_true_r in H3.
      * rewrite andb_false_r in H3. discriminate.
    + now apply sameIgnoringCase_Str.
  - apply MAltR. now apply sameIgnoringCase_Str.
Qed.

(** X15. A path that begins with [http://], [https://] or [www.], in any
    mix of upper and lower case, is a domain, and in production
    [src/Image.tsx] hands it to the proxy as it is. *)
Theorem ImageTsx_absolute_url (p rest loc : string) :
  sameIgnoringCase "http://" p || sameIgnoringCase "https://" p
    || sameIgnoringCase "www." p = true ->
  ImageTsx.isDomain (p ++ rest) = true /\
  ImageTsx.trueSrc (p ++ rest) loc (Some "production")
    = "//wsrv.nl?url=" ++ p ++ rest.
Proof.
  intros H.
  assert (Hd : ImageTsx.isDomain (p ++ rest) = true).
  { unfold ImageTsx.isDomain.
    rewrite (test_complete p ImageTsx.schemeOrWww rest (scheme_Matches p H)).
    reflexivity. }
  split; [exact Hd|]. unfold ImageTsx.trueSrc. now rewrite Hd.
Qed.

Lemma ImageTsx_absolute_url_witness :
  ImageTsx.isDomain ("HTTPS://" ++ "x.org/y.jpg") = true /\
  ImageTsx.trueSrc ("HTTPS://" ++ "x.org/y.jpg") "https://site" (Some "production")
    = "//wsrv.nl?url=" ++ "HTTPS://" ++ "x.org/y.jpg".
Proof.
  apply (ImageTsx_absolute_url "HTTPS://" "x.org/y.jpg" "https://site").
  reflexivity.
Defined.

Lemma isLetter_range (c : ascii) :
  isLetter c = true -> ImageTsx.rangeMatches "a" "z" c = true.
Proof.
  destruct c as [[|] [|] [|] [|] [|] [|] [|] [|]]; vm_compute; congruence.
Qed.

Lemma isAlnum_Matches (c : ascii) :
  isAlnum c = true -> Matches ImageTsx.alnum (String c "").
Proof.
  unfold isAlnum. intros H. apply orb_true_iff in H. destruct H as [H|H].
  - apply MAltL. constructor. now apply isLetter_range.
  - apply MAltR. constructor. unfold ImageTsx.rangeMatches. now rewrite H.
Qed.

Lemma Matches_Star_all (r : ImageTsx.regex) (p : ascii -> bool) :
  (forall c, p c = true -> Matches r (String c "")) ->
  forall s, allChars p s = true -> Matches (ImageTsx.Star r) s.
Proof.
  intros Hr s. induction s as [|c s IH]; simpl; intros H.
  - constructor.
  - apply andb_true_iff in H. destruct H as [Hc Hs].
    change (String c s) with (String c "" ++ s). apply MStarS; auto.
Qed.

Lemma fileName_Matches (name ext : string) :
  name <> "" -> allChars isAlnum name = true ->
  (2 <= String.length ext)%nat -> allChars isLetter ext = true ->
  Matches ImageTsx.hostLike (name ++ "." ++ ext).
Proof.
  intros Hn Ha Hl He. unfold ImageTsx.hostLike.
  constructor.
  - destruct name as [|c name]; [congruence|]. simpl in Ha.
    apply andb_true_iff in Ha. destruct Ha as [Hc Ha].
    change (String c name) with (String c "" ++ name).
    constructor; [now apply isAlnum_Matches|].
    now apply (Matches_Star_all _ isAlnum isAlnum_Matches).
  - change ("." ++ ext) with ("" ++ ("." ++ ext)). constructor; [constructor|].
    constructor; [now constructor|].
    destruct ext as [|e1 [|e2 ext]]; simpl in Hl; try lia.
    simpl in He. apply andb_true_iff in He. destruct He as [H1 He].
    apply andb_true_iff in He. destruct He as [H2 He].
    assert (Hr : forall c, isLetter c = true ->
                           Matches (ImageTsx.Range "a" "z") (String c ""))
      by (intros c Hc; constructor; now apply isLetter_range).
    change (String e1 (String e2 ext))
      with (String e1 "" ++ (String e2 "" ++ ext)).
    constructor; [auto|]. constructor; [auto|].
    now apply (Matches_Star_all _ isLetter Hr).
Qed.

(** X16. A bare file name is taken for a domain: a path that begins with
    letters and digits, a dot and at least two letters (such as
    [photo.jpg]) passes [isDomain], so in production [src/Image.tsx] sends
    it to the proxy without [window.location.origin] in front. *)
Theorem ImageTsx_file_name_as_domain (name ext rest loc : string) :
  name <> "" -> allChars isAlnum name = true ->
  (2 <= String.length ext)%nat -> allChars isLetter ext = true ->
  ImageTsx.isDomain (name ++ "." ++ ext ++ rest) = true /\
  ImageTsx.trueSrc (name ++ "." ++ ext ++ rest) loc (Some "production")
    = "//wsrv.nl?url=" ++ name ++ "." ++ ext ++ rest.
Proof.
  intros Hn Ha Hl He.
  assert (Hd : ImageTsx.isDomain (name ++ "." ++ ext ++ rest) = true).
  { unfold ImageTsx.isDomain.
    replace (name ++ "." ++ ext ++ rest) with ((name ++ "." ++ ext) ++ rest)
      by (rewrite string_app_assoc; reflexivity).
    rewrite (test_complete _ ImageTsx.hostLike rest
               (fileName_Matches name ext Hn Ha Hl He)).
    apply orb_true_r. }
  split; [exact Hd|]. unfold ImageTsx.trueSrc. now rewrite Hd.
Qed.

Lemma ImageTsx_file_name_as_domain_witness :
  ImageTsx.isDomain ("photo" ++ "." ++ "jpg" ++ "") = true /\
  ImageTsx.trueSrc ("photo" ++ "." ++ "jpg" ++ "") "https://site" (Some "production")
    = "//wsrv.nl?url=" ++ "photo" ++ "." ++ "jpg" ++ "".
Proof.
  apply (ImageTsx_file_name_as_domain "photo" "jpg" "" "https://site").
  - discriminate.
  - reflexivity.
  - simpl. lia.
  - reflexivity.
Defined.

(** ** The rendered dimensions *)

(** X17. For a catalog without zero widths or heights, after the resize
    handler has run: if no breakpoint fits the viewport the [width] and
    [height] props are both absent; if one fits they are the pixel strings
    of one breakpoint of the catalog, which is no wider than the viewport. *)
Theorem rendered_dimensions (sizes : list Size) (vw : Z) :
  (forall s, In s sizes -> width s <> 0 /\ height s <> 0) ->
  let currentSize := handleResize sizes vw in
  ((forall s, In s sizes -> vw < width s) ->
   widthProp currentSize = PUndefined /\ heightProp currentSize = PUndefined) /\
  ((exists s, In s sizes /\ width s <= vw) ->
   exists b, In b sizes /\ width b <= vw /\
             widthProp currentSize = PString (numToString (width b) ++ "px") /\
             heightProp currentSize = PString (numToString (height b) ++ "px")).
Proof.
  intros Hnz currentSize. subst currentSize.
  pose proof (handleResize_max sizes vw) as M.
  destruct (handleResize sizes vw) as [b|]; split.
  - intros Hnone. destruct M as (Hin & Hfit & _). specialize (Hnone _ Hin). lia.
  - intros _. destruct M as (Hin & Hfit & _). exists b.
    destruct (Hnz _ Hin) as [Hw Hh].
    unfold widthProp, heightProp, dimensionProp. simpl.
    apply Z.eqb_neq in Hw, Hh. rewrite Hw, Hh. auto.
  - auto.
  - intros (s & Hin & Hfit). specialize (M _ Hin). lia.
Qed.

Lemma rendered_dimensions_witness :
  exists b, In b __DEFAULT_SIZES__ /\ width b <= 800 /\
            widthProp (handleResize __DEFAULT_SIZES__ 800)
              = PString (numToString (width b) ++ "px") /\
            heightProp (handleResize __DEFAULT_SIZES__ 800)
              = PString (numToString (height b) ++ "px").
Proof.
  apply (proj2 (rendered_dimensions __DEFAULT_SIZES__ 800
                  ltac:(intros s Hs; simpl in Hs;
                        repeat (destruct Hs as [<-|Hs]; [simpl; lia|]);
                        destruct Hs))).
  exists (mkSize 320 320). simpl. split; [auto | lia].
Defined.

(** Without a body to measure, the resize handler selects nothing; with
    one, it selects what [handleResize] selects at the body's width. *)
Lemma handleResizeOn_body (sizes : list Size) :
  handleResizeOn sizes None = None /\
  forall w, handleResizeOn sizes (Some w) = handleResize sizes w.
Proof.
  split; [|reflexivity]. unfold handleResizeOn.
  induction sizes as [|s sizes IH]; [reflexivity | exact IH].
Qed.

(** ** The preload effect, continued *)

(** X18. The effect only ever appends to [document.head]: what was there
    stays, in place and in order, and at most two children are added, each a
    preconnect link to the proxy or the preload link of this descriptor.
    This holds however the document reads the selectors, also when a lookup
    throws. *)
Theorem preloadEffect_only_appends (engine : SelectorEngine) (preload : bool)
        (sizeSet srcSet : string) (head : Head) :
  exists added,
    fst (preloadEffect engine preload sizeSet srcSet head) = (head ++ added)%list /\
    (List.length added <= 2)%nat /\
    forall c, In c added ->
              c = LinkEl newPreconnectLink \/
              c = LinkEl (newPreloadLink srcSet sizeSet).
Proof.
  unfold preloadEffect. destruct preload.
  - unfold bind.
    destruct (engine preconnectSelector) as [d1|] eqn:E1.
    + rewrite (ensurePreconnect_run _ _ head E1).
      destruct (engine (preloadSelector srcSet sizeSet)) as [d2|] eqn:E2.
      * rewrite (ensurePreload_run _ _ _ _ _ E2). cbn [fst].
        destruct (ensureLink_grows d1 newPreconnectLink head) as [G1|G1];
          rewrite G1;
          match goal with
          | |- context [ensureLink d2 ?l ?h] =>
              destruct (ensureLink_grows d2 l h) as [G2|G2]; rewrite G2
          end.
        -- exists []. rewrite app_nil_r. simpl. split; [auto|]. split; [lia | tauto].
        -- exists [LinkEl (newPreloadLink srcSet sizeSet)]. simpl.
           split; [auto|]. split; [lia|]. intros c [<-|[]]. auto.
        -- exists [LinkEl newPreconnectLink]. simpl.
           split; [auto|]. split; [lia|]. intros c [<-|[]]. auto.
        -- exists [LinkEl newPreconnectLink; LinkEl (newPreloadLink srcSet sizeSet)].
           rewrite <- app_assoc. simpl.
           split; [auto|]. split; [lia|]. intros c [<-|[<-|[]]]; auto.
      * rewrite (ensurePreload_throws _ _ _ _ E2). cbn [fst].
        destruct (ensureLink_grows d1 newPreconnectLink head) as [G1|G1]; rewrite G1.
        -- exists []. rewrite app_nil_r. simpl. split; [auto|]. split; [lia | tauto].
        -- exists [LinkEl newPreconnectLink]. simpl.
           split; [auto|]. split; [lia|]. intros c [<-|[]]. auto.
    + rewrite (ensurePreconnect_throws _ head E1). cbn [fst].
      exists []. rewrite app_nil_r. simpl. split; [auto|]. split; [lia | tauto].
  - exists []. rewrite app_nil_r. simpl. split; [auto|]. split; [lia | tauto].
Qed.

Lemma preloadEffect_run (engine : SelectorEngine) (sizeSet srcSet : string)
      (heldSrcSet heldSizes : string) (head : Head) :
  engineContract engine ->
  cssString srcSet = Some heldSrcSet ->
  cssString sizeSet = Some heldSizes ->
  preloadEffect engine true sizeSet srcSet head
  = (ensureLink (matchesLink [(A_as, "image"); (A_imageSrcset, heldSrcSet);
                              (A_imageSizes, heldSizes)])
                (newPreloadLink srcSet sizeSet)
                (ensureLink (matchesLink [(A_href, "//wsrv.nl")])
                            newPreconnectLink head),
     DomOk tt).
Proof.
  intros [Hpc Hpl] Hs Hz. unfold preloadEffect, bind.
  rewrite (ensurePreconnect_run _ _ head Hpc).
  now rewrite (ensurePreload_run _ _ _ _ _ (Hpl _ _ _ _ Hs Hz)).
Qed.

Lemma ensureLink_already (denotes : HeadChild -> bool) (l : HTMLLinkElement)
      (head : Head) (c : HeadChild) :
  find denotes head = Some c -> ensureLink denotes l head = head.
Proof. intros H. unfold ensureLink. now rewrite H. Qed.




(** X20. When the document reads the selectors as CSS prescribes and the
    descriptor strings of two instances hold no double quote, backslash,
    line break or NUL, the order in which the two run their effects does not
    matter for what ends up in [document.head]: both orders reach their end
    and give the same children, up to the order of the appended links. *)
Theorem preloadEffect_commutes (engine : SelectorEngine)
        (sizeSetA srcSetA sizeSetB srcSetB : string) (head : Head) :
  engineContract engine ->
  allChars plainChar srcSetA = true -> allChars plainChar sizeSetA = true ->
  allChars plainChar srcSetB = true -> allChars plainChar sizeSetB = true ->
  let a := preloadEffect engine true sizeSetA srcSetA head in
  let ab := preloadEffect engine true sizeSetB srcSetB (fst a) in
  let b := preloadEffect engine true sizeSetB srcSetB head in
  let ba := preloadEffect engine true sizeSetA srcSetA (fst b) in
  snd a = DomOk tt /\ snd ab = DomOk tt /\
  snd b = DomOk tt /\ snd ba = DomOk tt /\
  Permutation (fst ab) (fst ba).
Proof.
  intros Hc HsA HzA HsB HzB a ab b ba. subst a ab b ba.
  apply plain_cssString in HsA, HzA, HsB, HzB.
  rewrite (preloadEffect_run _ _ _ _ _ head Hc HsA HzA).
  rewrite (preloadEffect_run _ _ _ _ _ head Hc HsB HzB). cbn [fst snd].
  rewrite (preloadEffect_run _ _ _ _ _ _ Hc HsA HzA).
  rewrite (preloadEffect_run _ _ _ _ _ _ Hc HsB HzB). cbn [fst snd].
  repeat (split; [reflexivity|]).
  set (d1 := matchesLink [(A_href, "//wsrv.nl")]).
  set (dA := matchesLink [(A_as, "image"); (A_imageSrcset, srcSetA);
                          (A_imageSizes, sizeSetA)]).
  set (dB := matchesLink [(A_as, "image"); (A_imageSrcset, srcSetB);
                          (A_imageSizes, sizeSetB)]).
  set (h1 := ensureLink d1 newPreconnectLink head).
  destruct (ensureLink_found d1 newPreconnectLink eq_refl head) as [c1 F1].
  fold h1 in F1.
  rewrite (ensureLink_already d1 _ _ c1) by (now apply ensureLink_keeps).
  rewrite (ensureLink_already d1 _ _ c1) by (now apply ensureLink_keeps).
  destruct (String.eqb srcSetA srcSetB && String.eqb sizeSetA sizeSetB) eqn:E.
  - apply andb_true_iff in E. destruct E as [E1 E2].
    apply String.eqb_eq in E1, E2. subst. apply Permutation_refl.
  - apply ensureLink_swap; subst dA dB; rewrite preload_link_matches; [|exact E].
    now rewrite (String.eqb_sym srcSetB), (String.eqb_sym sizeSetB).
Qed.

Lemma preloadEffect_commutes_witness :
  Permutation
    (fst (preloadEffect templateEngine true "(max-width: 768px) 768px"
            "b.jpg?w=768&h=768 768w"
            (fst (preloadEffect templateEngine true "(max-width: 320px) 320px"
                    "a.jpg?w=320&h=320 320w" []))))
    (fst (preloadEffect templateEngine true "(max-width: 320px) 320px"
            "a.jpg?w=320&h=320 320w"
            (fst (preloadEffect templateEngine true "(max-width: 768px) 768px"
                    "b.jpg?w=768&h=768 768w" [])))).
Proof.
  apply (preloadEffect_commutes templateEngine
           "(max-width: 320px) 320px" "a.jpg?w=320&h=320 320w"
           "(max-width: 768px) 768px" "b.jpg?w=768&h=768 768w" []
           templateEngine_contract eq_refl eq_refl eq_refl eq_refl).
Defined.

(** *** The descriptor strings of plain paths are plain *)

Lemma allChars_weaken (p q : ascii -> bool) (s : string) :
  (forall c, p c = true -> q c = true) ->
  allChars p s = true -> allChars q s = true.
Proof.
  intros Hpq. induction s as [|c s IH]; simpl; [reflexivity|].
  intros H. apply andb_true_iff in H. destruct H as [Hc Hs].
  now rewrite (Hpq _ Hc), (IH Hs).
Qed.

Lemma numChar_plain (c : ascii) : isNumChar c = true -> plainChar c = true.
Proof.
  destruct c as [[|] [|] [|] [|] [|] [|] [|] [|]]; vm_compute; congruence.
Qed.

Lemma numToString_plain (n : Z) : allChars plainChar (numToString n) = true.
Proof.
  apply (allChars_weaken isNumChar); [exact numChar_plain|].
  apply numToString_numChars.
Qed.

Lemma join_plain (parts : list string) :
  Forall (fun x => allChars plainChar x = true) parts ->
  allChars plainChar (join parts ", ") = true.
Proof.
  unfold join. induction 1 as [|x parts Hx Hall IH]; [reflexivity|].
  destruct parts as [|y parts]; [exact Hx|].
  change (String.concat ", " (x :: y :: parts))
    with (x ++ ", " ++ String.concat ", " (y :: parts)).
  rewrite !allChars_app, Hx, IH. reflexivity.
Qed.

Lemma getWidths_plain (sizes : list Size) :
  allChars plainChar (getWidths sizes) = true.
Proof.
  unfold getWidths. apply join_plain. apply Forall_forall.
  intros x Hx. apply in_map_iff in Hx. destruct Hx as (b & <- & _).
  unfold widthClause. rewrite !allChars_app, !numToString_plain. reflexivity.
Qed.

Lemma trueSrc_plain (src : string) (origin NODE_ENV : option string) :
  allChars plainChar src = true ->
  (forall o, origin = Some o -> allChars plainChar o = true) ->
  allChars plainChar (trueSrc src origin NODE_ENV) = true.
Proof.
  intros Hs Ho. unfold trueSrc.
  destruct (notOrigin origin).
  - rewrite allChars_app, Hs. reflexivity.
  - destruct origin as [o|]; simpl originText.
    + specialize (Ho o eq_refl).
      destruct (isProduction NODE_ENV); [|exact Hs].
      destruct (startsWithSlash src); rewrite !allChars_app, Ho, Hs; reflexivity.
    + destruct (isProduction NODE_ENV); [|exact Hs].
      destruct (startsWithSlash src); rewrite !allChars_app, Hs; reflexivity.
Qed.

Lemma createSrcSet_plain (src : string) (sizes : list Size)
      (origin NODE_ENV : option string) :
  allChars plainChar src = true ->
  (forall o, origin = Some o -> allChars plainChar o = true) ->
  allChars plainChar (createSrcSet src sizes origin NODE_ENV) = true.
Proof.
  intros Hs Ho. unfold createSrcSet. apply join_plain. apply Forall_forall.
  intros x Hx. apply in_map_iff in Hx. destruct Hx as (b & <- & _).
  unfold candidate.
  rewrite !allChars_app, !numToString_plain, (trueSrc_plain _ _ _ Hs Ho).
  reflexivity.
Qed.

(** X21. When the document reads the selectors as CSS prescribes and path
    and origin hold no double quote, backslash, line break or NUL, two
    instances of the same image with different catalogs never share a
    preload hint: on a head without children, mounting the one and then the
    other reaches its end both times and leaves the preconnect link and one
    preload link for each catalog. *)
Theorem mountPreload_distinct_catalogs (engine : SelectorEngine) (src : string)
        (origin NODE_ENV : option string) (c1 c2 : list Size) :
  engineContract engine ->
  allChars plainChar src = true ->
  (forall o, origin = Some o -> allChars plainChar o = true) ->
  c1 <> c2 ->
  let first := mountPreload engine src c1 origin NODE_ENV [] in
  let second := mountPreload engine src c2 origin NODE_ENV (fst first) in
  snd first = DomOk tt /\
  snd second = DomOk tt /\
  fst second
  = [ LinkEl newPreconnectLink;
      LinkEl (newPreloadLink (createSrcSet src c1 origin NODE_ENV) (getWidths c1));
      LinkEl (newPreloadLink (createSrcSet src c2 origin NODE_ENV) (getWidths c2)) ].
Proof.
  intros Hc Hsrc Ho Hne first second. subst first second. unfold mountPreload.
  pose proof (plain_cssString _ (createSrcSet_plain src c1 origin NODE_ENV Hsrc Ho)) as S1.
  pose proof (plain_cssString _ (createSrcSet_plain src c2 origin NODE_ENV Hsrc Ho)) as S2.
  pose proof (plain_cssString _ (getWidths_plain c1)) as Z1.
  pose proof (plain_cssString _ (getWidths_plain c2)) as Z2.
  rewrite (preloadEffect_run _ _ _ _ _ [] Hc S1 Z1). cbn [fst snd].
  rewrite (preloadEffect_run _ _ _ _ _ _ Hc S2 Z2). cbn [fst snd].
  split; [reflexivity|]. split; [reflexivity|].
  assert (Hs : String.eqb (createSrcSet src c1 origin NODE_ENV)
                          (createSrcSet src c2 origin NODE_ENV) = false).
  { apply String.eqb_neq. intros E. apply Hne.
    unfold createSrcSet in E. now apply join_candidates_inj in E. }
  change (ensureLink (matchesLink [(A_href, "//wsrv.nl")]) newPreconnectLink [])
    with [LinkEl newPreconnectLink].
  change (ensureLink
            (matchesLink [(A_as, "image");
                          (A_imageSrcset, createSrcSet src c1 origin NODE_ENV);
                          (A_imageSizes, getWidths c1)])
            (newPreloadLink (createSrcSet src c1 origin NODE_ENV) (getWidths c1))
            [LinkEl newPreconnectLink])
    with [LinkEl newPreconnectLink;
          LinkEl (newPreloadLink (createSrcSet src c1 origin NODE_ENV) (getWidths c1))].
  change (ensureLink (matchesLink [(A_href, "//wsrv.nl")]) newPreconnectLink
            [LinkEl newPreconnectLink;
             LinkEl (newPreloadLink (createSrcSet src c1 origin NODE_ENV) (getWidths c1))])
    with [LinkEl newPreconnectLink;
          LinkEl (newPreloadLink (createSrcSet src c1 origin NODE_ENV) (getWidths c1))].
  unfold ensureLink. cbn [find].
  change (matchesLink
            [(A_as, "image"); (A_imageSrcset, createSrcSet src c2 origin NODE_ENV);
             (A_imageSizes, getWidths c2)]
            (LinkEl newPreconnectLink)) with false.
  cbv iota. rewrite preload_link_matches, Hs. reflexivity.
Qed.

Lemma mountPreload_distinct_catalogs_witness :
  fst (mountPreload templateEngine "a.jpg" [mkSize 768 768] None None
         (fst (mountPreload templateEngine "a.jpg" [mkSize 320 320] None None [])))
  = [ LinkEl newPreconnectLink;
      LinkEl (newPreloadLink (createSrcSet "a.jpg" [mkSize 320 320] None None)
                             (getWidths [mkSize 320 320]));
      LinkEl (newPreloadLink (createSrcSet "a.jpg" [mkSize 768 768] None None)
                             (getWidths [mkSize 768 768])) ].
Proof.
  apply (mountPreload_distinct_catalogs templateEngine "a.jpg" None None
           [mkSize 320 320] [mkSize 768 768] templateEngine_contract eq_refl).
  - discriminate.
  - discriminate.
Defined.

(** ** Mounting and unmounting *)

Lemma addEventListener_fresh (listeners : list nat) (h : nat) :
  ~ In h listeners -> addEventListener listeners h = (listeners ++ [h])%list.
Proof.
  intros Hf. unfold addEventListener.
  destruct (existsb (Nat.eqb h) listeners) eqn:E; [|reflexivity].
  apply existsb_exists in E. destruct E as (k & Hk & Ek).
  apply Nat.eqb_eq in Ek. subst. contradiction.
Qed.

Lemma removeEventListener_app (l1 l2 : list nat) (h : nat) :
  ~ In h l1 ->
  removeEventListener (l1 ++ l2) h = (l1 ++ removeEventListener l2 h)%list.
Proof.
  induction l1 as [|k l1 IH]; simpl; intros Hf; [reflexivity|].
  destruct (Nat.eqb h k) eqn:E.
  - apply Nat.eqb_eq in E. subst. tauto.
  - rewrite IH; tauto.
Qed.

Lemma removeEventListener_last (l : list nat) (h : nat) :
  ~ In h l -> removeEventListener (l ++ [h]) h = l.
Proof.
  intros Hf. rewrite removeEventListener_app by assumption. simpl.
  rewrite Nat.eqb_refl. apply app_nil_r.
Qed.

Lemma effect_cases (engine : SelectorEngine) (preload : bool)
      (sizeSet srcSet : string) (sizes : list Size) (h : nat) (pg : Page) :
  let run := preloadEffect engine preload sizeSet srcSet (page_head pg) in
  (snd run = DomOk tt /\
   effect engine preload sizeSet srcSet sizes h pg
   = (mkPage (fst run) (addEventListener (page_listeners pg) h)
             (page_clientWidth pg),
      DomOk (mkMounted
               (handleResizeOn sizes (page_clientWidth pg))
               (fun p => mkPage (page_head p)
                                (removeEventListener (page_listeners p) h)
                                (page_clientWidth p))))) \/
  (snd run = DomSyntaxError /\
   effect engine preload sizeSet srcSet sizes h pg
   = (mkPage (fst run) (page_listeners pg) (page_clientWidth pg), DomSyntaxError)).
Proof.
  intros run. subst run. unfold effect.
  destruct (preloadEffect engine preload sizeSet srcSet (page_head pg))
    as [head' [[]|]]; cbn [fst snd]; auto.
Qed.

(** X22. The listener of an instance lives exactly as long as the instance.
    When the effect reaches its end, [window] has the earlier resize
    listeners and the new one, and the cleanup it returned restores the
    earlier listeners and leaves [document.head] as the effect left it.  When
    the preload block throws, the effect ends there and the listeners are
    the earlier ones.  The effect reaches its end whenever [preload] is not
    set, and whenever the document reads the selectors as CSS prescribes and
    the descriptor strings hold no double quote, backslash, line break or
    NUL. *)
Theorem effect_cleanup_restores_listeners (engine : SelectorEngine)
        (preload : bool) (sizeSet srcSet : string)
        (sizes : list Size) (h : nat) (pg : Page) :
  ~ In h (page_listeners pg) ->
  let run := effect engine preload sizeSet srcSet sizes h pg in
  match snd run with
  | DomOk m =>
      page_listeners (fst run) = (page_listeners pg ++ [h])%list /\
      page_listeners (cleanup m (fst run)) = page_listeners pg /\
      page_head (cleanup m (fst run)) = page_head (fst run) /\
      measured m = handleResizeOn sizes (page_clientWidth pg)
  | DomSyntaxError => page_listeners (fst run) = page_listeners pg
  end /\
  page_head (fst run)
    = fst (preloadEffect engine preload sizeSet srcSet (page_head pg)) /\
  (preload = false -> exists m, snd run = DomOk m) /\
  (engineContract engine ->
   allChars plainChar srcSet = true -> allChars plainChar sizeSet = true ->
   exists m, snd run = DomOk m).
Proof.
  intros Hf run. subst run.
  destruct (effect_cases engine preload sizeSet srcSet sizes h pg) as [[Hr E]|[Hr E]];
    rewrite E; cbn [fst snd page_listeners page_head cleanup measured].
  - rewrite (addEventListener_fresh _ _ Hf).
    split; [|split; [reflexivity|split; eauto]].
    split; [reflexivity|]. split; [|split; reflexivity].
    now apply removeEventListener_last.
  - split; [reflexivity|]. split; [reflexivity|]. split.
    + intros ->. simpl in Hr. discriminate.
    + intros Hc Hs Hz. destruct preload; [|simpl in Hr; discriminate].
      rewrite (preloadEffect_run _ _ _ _ _ _ Hc (plain_cssString _ Hs)
                 (plain_cssString _ Hz)) in Hr.
      discriminate.
Qed.

Lemma effect_cleanup_restores_listeners_witness :
  let pg := mkPage [] [7%nat] (Some 800) in
  let run := effect templateEngine true "(max-width: 320px) 320px"
                    "a.jpg?w=320&h=320 320w" [mkSize 320 320] 8%nat pg in
  match snd run with
  | DomOk m =>
      page_listeners (fst run) = [7%nat; 8%nat] /\
      page_listeners (cleanup m (fst run)) = [7%nat] /\
      page_head (cleanup m (fst run)) = page_head (fst run) /\
      measured m = Some (mkSize 320 320)
  | DomSyntaxError => page_listeners (fst run) = [7%nat]
  end.
Proof.
  apply (effect_cleanup_restores_listeners templateEngine true
           "(max-width: 320px) 320px" "a.jpg?w=320&h=320 320w"
           [mkSize 320 320] 8%nat (mkPage [] [7%nat] (Some 800))).
  simpl. intros [H|[]]. discriminate.
Defined.

(** X23. Cleanup is per instance.  Of two instances mounted one after the
    other whose effects both reach their end, the cleanup of the first
    leaves the earlier listeners and the second one's listener, and the
    cleanup of the second then leaves the earlier listeners alone.  When the
    first one's effect is cut short by a throw, it has left no listener, and
    the second one's cleanup restores the earlier listeners. *)
Theorem effect_cleanup_is_per_instance (engine : SelectorEngine)
        (pa pb : bool) (za sa zb sb : string) (ca cb : list Size)
        (ha hb : nat) (pg pga pgb : Page) (mb : Mounted) :
  ~ In ha (page_listeners pg) -> ~ In hb (page_listeners pg) -> ha <> hb ->
  effect engine pb zb sb cb hb pga = (pgb, DomOk mb) ->
  (forall ma, effect engine pa za sa ca ha pg = (pga, DomOk ma) ->
     page_listeners (cleanup ma pgb) = (page_listeners pg ++ [hb])%list /\
     page_listeners (cleanup mb (cleanup ma pgb)) = page_listeners pg) /\
  (effect engine pa za sa ca ha pg = (pga, DomSyntaxError) ->
     page_listeners pgb = (page_listeners pg ++ [hb])%list /\
     page_listeners (cleanup mb pgb) = page_listeners pg).
Proof.
  intros Hfa Hfb Hne Eb.
  destruct (effect_cases engine pb zb sb cb hb pga) as [[_ Eb']|[_ Eb']];
    rewrite Eb' in Eb; [|discriminate].
  injection Eb as <- <-.
  split.
  - intros ma Ea.
    destruct (effect_cases engine pa za sa ca ha pg) as [[_ Ea']|[_ Ea']];
      rewrite Ea' in Ea; [|discriminate].
    injection Ea as <- <-.
    cbn [cleanup page_listeners].
    rewrite (addEventListener_fresh _ _ Hfa).
    rewrite addEventListener_fresh
      by (intros H; apply in_app_or in H; destruct H as [H|[H|[]]]; auto).
    rewrite <- app_assoc. rewrite removeEventListener_app by assumption.
    simpl. rewrite Nat.eqb_refl.
    split; [reflexivity|]. now apply removeEventListener_last.
  - intros Ea.
    destruct (effect_cases engine pa za sa ca ha pg) as [[_ Ea']|[_ Ea']];
      rewrite Ea' in Ea; [discriminate|].
    injection Ea as <-.
    cbn [cleanup page_listeners].
    rewrite (addEventListener_fresh _ _ Hfb).
    split; [reflexivity|]. now apply removeEventListener_last.
Qed.

Lemma effect_cleanup_is_per_instance_witness :
  let pg := mkPage [] [7%nat] (Some 800) in
  let a := effect templateEngine false "" "" [mkSize 320 320] 8%nat pg in
  let b := effect templateEngine false "" "" [mkSize 768 768] 9%nat (fst a) in
  exists ma mb,
    snd a = DomOk ma /\ snd b = DomOk mb /\
    page_listeners (cleanup ma (fst b)) = [7%nat; 9%nat] /\
    page_listeners (cleanup mb (cleanup ma (fst b))) = [7%nat].
Proof.
  intros pg a b. eexists. eexists.
  split; [reflexivity|]. split; [reflexivity|].
  refine (proj1 (effect_cleanup_is_per_instance templateEngine false false
                   "" "" "" "" [mkSize 320 320] [mkSize 768 768] 8%nat 9%nat
                   pg (fst a) (fst b) _ _ _ _ _) _ _).
  - simpl. intros [H|[]]. discriminate.
  - simpl. intros [H|[]]. discriminate.
  - discriminate.
  - reflexivity.
  - reflexivity.
Defined.
